(** * Image rotation (rotate.c): a shallow embedding and its properties

    The development follows the layout of [rotate.c]:
    - [Memory]: byte blocks addressed by integer offsets, with the
      32-bit accesses that [reverse_inplace_quad] performs through
      [uint32_t] pointers;
    - [Engine]: the three transforms [reverse_inplace_quad], [rot90cw]
      and [rot90ccw];
    - [Rotate]: the context record, [rotate_init] and [rotate_map].

    Conventions.  A pointer into a block is the block together with an
    integer offset; an access outside the block (or through a NULL
    pointer) is undefined behaviour in C and is [None] here.  Loops are
    written with their own test and a bound on the number of rounds;
    section [LoopBounds] shows that the bound is never what stops a
    loop. *)

From Stdlib Require Import ZArith Lia List Strings.Byte.
From stdpp Require Import base tactics option list numbers.
From coqutil Require Import Z.bitblast.

Local Open Scope Z_scope.

(** ** Memory blocks *)

Module Memory.

Abbreviation block := (list byte).

(** [*(p)] for an [unsigned char *p] at offset [p] of block [m]. *)
Definition load (m : block) (p : Z) : option byte :=
  if decide (0 <= p) then m !! Z.to_nat p else None.

(** [*(p) = b]. *)
Definition store (m : block) (p : Z) (b : byte) : option block :=
  if decide (0 <= p < Z.of_nat (length m))
  then Some (<[Z.to_nat p := b]> m)
  else None.

(** [memcpy(dst, src, n)] between two distinct blocks, both taken at
    offset 0. *)
Definition memcpy (dst src : block) (n : Z) : option block :=
  if decide (0 <= n <= Z.of_nat (length dst) /\ n <= Z.of_nat (length src))
  then Some (take (Z.to_nat n) src ++ drop (Z.to_nat n) dst)
  else None.

(** *** Bytes and 32-bit words *)

Definition Z_of_byte (b : byte) : Z := Z.of_N (Byte.to_N b).

Definition byte_of_Z (z : Z) : byte :=
  default x00 (Byte.of_N (Z.to_N (Z.land z 255))).

(** Byte [k] of a word, counted from the least significant one. *)
Definition byte_at (k : Z) (w : Z) : Z := Z.land (Z.shiftr w (8 * k)) 255.

Definition uint32 (z : Z) : Z := z mod 2 ^ 32.

(** The word whose bytes are [z0] (least significant) to [z3]. *)
Definition word_of (z0 z1 z2 z3 : Z) : Z :=
  Z.lor z0 (Z.lor (Z.shiftl z1 8) (Z.lor (Z.shiftl z2 16) (Z.shiftl z3 24))).

(** Byte order of the machine: which end of a word sits at the lowest
    address. *)
Inductive endianness := LittleEndian | BigEndian.

(** [bswap_32] of <byteswap.h>, as its constant-folding definition
    [__bswap_constant_32] spells it on [uint32_t]. *)
Definition bswap_32 (x : Z) : Z :=
  Z.lor (Z.lor (Z.lor (Z.shiftr (Z.land x 0xff000000) 24)
                      (Z.shiftr (Z.land x 0x00ff0000) 8))
               (uint32 (Z.shiftl (Z.land x 0x0000ff00) 8)))
        (uint32 (Z.shiftl (Z.land x 0x000000ff) 24)).

Section Words.
Variable endian : endianness.

(** The word read from four bytes met at increasing addresses. *)
Definition word_of_bytes (b0 b1 b2 b3 : byte) : Z :=
  match endian with
  | LittleEndian =>
      word_of (Z_of_byte b0) (Z_of_byte b1) (Z_of_byte b2) (Z_of_byte b3)
  | BigEndian =>
      word_of (Z_of_byte b3) (Z_of_byte b2) (Z_of_byte b1) (Z_of_byte b0)
  end.

(** The four bytes a word leaves at increasing addresses. *)
Definition bytes_of_word (w : Z) : list byte :=
  match endian with
  | LittleEndian =>
      [byte_of_Z (byte_at 0 w); byte_of_Z (byte_at 1 w);
       byte_of_Z (byte_at 2 w); byte_of_Z (byte_at 3 w)]
  | BigEndian =>
      [byte_of_Z (byte_at 3 w); byte_of_Z (byte_at 2 w);
       byte_of_Z (byte_at 1 w); byte_of_Z (byte_at 0 w)]
  end.

(** [*(p)] for a [uint32_t *p]. *)
Definition load32 (m : block) (p : Z) : option Z :=
  b0 ← load m p;
  b1 ← load m (p + 1);
  b2 ← load m (p + 2);
  b3 ← load m (p + 3);
  Some (word_of_bytes b0 b1 b2 b3).

Fixpoint store_bytes (m : block) (p : Z) (bs : list byte) : option block :=
  match bs with
  | [] => Some m
  | b :: bs' => m' ← store m p b; store_bytes m' (p + 1) bs'
  end.

(** [*(p) = w] for a [uint32_t *p]. *)
Definition store32 (m : block) (p : Z) (w : Z) : option block :=
  store_bytes m p (bytes_of_word w).
End Words.

End Memory.

Import Memory.

(** ** The transforms *)

Module Engine.

Section Reverse.
Variable endian : endianness.

(** The [while (nsrc < ndst)] loop of [reverse_inplace_quad]; both
    pointers are byte offsets and move by one quad per round. *)
Fixpoint reverse_loop (fuel : nat) (m : block) (nsrc ndst : Z)
  : option block :=
  if decide (nsrc < ndst) then
    match fuel with
    | O => None
    | S fuel' =>
        tmp ← bswap_32 <$> load32 endian m ndst;
        v ← load32 endian m nsrc;
        m1 ← store32 endian m ndst (bswap_32 v);
        m2 ← store32 endian m1 nsrc tmp;
        reverse_loop fuel' m2 (nsrc + 4) (ndst - 4)
    end
  else Some m.

Definition reverse_inplace_quad (m : block) (src : Z) (size : Z)
  : option block :=
  let nsrc := src in
  let ndst := src + size - 4 in
  reverse_loop (Z.to_nat size) m nsrc ndst.
End Reverse.

(** The inner loop of [rot90cw],
  [for (j = 0; j < height; j++, src -= width) *dst++ = *src;]
  It hands back the destination block and the advanced [dst]. *)
Fixpoint rot90cw_column (fuel : nat) (srcm : block) (width height : Z)
  (j src : Z) (dstm : block) (dst : Z) : option (block * Z) :=
  if decide (j < height) then
  match fuel with
  | O => None
  | S fuel' =>
      b ← load srcm src;
      dstm' ← store dstm dst b;
      rot90cw_column fuel' srcm width height (j + 1) (src - width)
        dstm' (dst + 1)
  end
  else Some (dstm, dst).

(** The outer loop of [rot90cw],
  [for (base = endp - width; base < endp; base++) { src = base; ... }] *)
Fixpoint rot90cw_columns (fuel : nat) (srcm : block) (width height : Z)
  (base endp : Z) (dstm : block) (dst : Z) : option (block * Z) :=
  if decide (base < endp) then
  match fuel with
  | O => None
  | S fuel' =>
      '(dstm', dst') ←
        rot90cw_column (Z.to_nat height) srcm width height 0 base dstm dst;
      rot90cw_columns fuel' srcm width height (base + 1) endp dstm' dst'
  end
  else Some (dstm, dst).

(** [rot90cw(src, dst, size, width, height)]: [src] is an offset into
  the block [srcm], [dst] an offset into the distinct block [dstm];
  the result is the destination block after the call. *)
Definition rot90cw (srcm : block) (src : Z) (dstm : block) (dst : Z)
  (size width height : Z) : option block :=
  let endp := src + size in
  fst <$> rot90cw_columns (Z.to_nat width) srcm width height
          (endp - width) endp dstm dst.

(** The inner loop of [rot90ccw]: as above with [*dst-- = *src]. *)
Fixpoint rot90ccw_column (fuel : nat) (srcm : block) (width height : Z)
  (j src : Z) (dstm : block) (dst : Z) : option (block * Z) :=
  if decide (j < height) then
  match fuel with
  | O => None
  | S fuel' =>
      b ← load srcm src;
      dstm' ← store dstm dst b;
      rot90ccw_column fuel' srcm width height (j + 1) (src - width)
        dstm' (dst - 1)
  end
  else Some (dstm, dst).

Fixpoint rot90ccw_columns (fuel : nat) (srcm : block) (width height : Z)
  (base endp : Z) (dstm : block) (dst : Z) : option (block * Z) :=
  if decide (base < endp) then
  match fuel with
  | O => None
  | S fuel' =>
      '(dstm', dst') ←
        rot90ccw_column (Z.to_nat height) srcm width height 0 base dstm dst;
      rot90ccw_columns fuel' srcm width height (base + 1) endp dstm' dst'
  end
  else Some (dstm, dst).

(** [rot90ccw(src, dst, size, width, height)]; it first moves [dst] to
  the last byte of the destination extent. *)
Definition rot90ccw (srcm : block) (src : Z) (dstm : block) (dst : Z)
  (size width height : Z) : option block :=
  let endp := src + size in
  let dst := dst + size - 1 in
  fst <$> rot90ccw_columns (Z.to_nat width) srcm width height
          (endp - width) endp dstm dst.

End Engine.

Import Engine.

(** ** Rotation state, set-up and the per-frame entry point *)

Module Rotate.

(** C [int]: 32 bits, two's complement, products taken modulo 2^32. *)
Definition int_wrap (z : Z) : Z := (z + 2 ^ 31) mod 2 ^ 32 - 2 ^ 31.
Definition int_mul (a b : Z) : Z := int_wrap (a * b).

(** Modelled from the spec: the two palette identifiers come from the
    video headers, which are not part of this file; the spec only says
    that Greyscale and Planar420 are two distinct formats.  The values
    are those of the V4L1 API. *)
Definition VIDEO_PALETTE_GREY : Z := 1.
Definition VIDEO_PALETTE_YUV420P : Z := 15.

(** Modelled from the spec: [struct context] is declared in a header
    that is not part of this file.  The record keeps the fields that
    rotate.c touches, under their source names: [conf.rotate_deg],
    [imgs.width], [imgs.height], [imgs.type] and the four fields of
    [rotate_data].  They are the rotation state of the spec (angle,
    capture and output dimensions, scratch buffer) together with the
    requested angle and the pixel format. *)
Record context := Context {
  conf_rotate_deg : Z;
  imgs_width : Z;
  imgs_height : Z;
  imgs_type : Z;
  degrees : Z;
  cap_width : Z;
  cap_height : Z;
  temp_buf : option block   (* [None] is the NULL pointer *)
}.

Definition set_rotate_deg (v : Z) (c : context) : context :=
  Context v (imgs_width c) (imgs_height c) (imgs_type c)
    (degrees c) (cap_width c) (cap_height c) (temp_buf c).
Definition set_imgs_width (v : Z) (c : context) : context :=
  Context (conf_rotate_deg c) v (imgs_height c) (imgs_type c)
    (degrees c) (cap_width c) (cap_height c) (temp_buf c).
Definition set_imgs_height (v : Z) (c : context) : context :=
  Context (conf_rotate_deg c) (imgs_width c) v (imgs_type c)
    (degrees c) (cap_width c) (cap_height c) (temp_buf c).
Definition set_degrees (v : Z) (c : context) : context :=
  Context (conf_rotate_deg c) (imgs_width c) (imgs_height c) (imgs_type c)
    v (cap_width c) (cap_height c) (temp_buf c).
Definition set_cap_width (v : Z) (c : context) : context :=
  Context (conf_rotate_deg c) (imgs_width c) (imgs_height c) (imgs_type c)
    (degrees c) v (cap_height c) (temp_buf c).
Definition set_cap_height (v : Z) (c : context) : context :=
  Context (conf_rotate_deg c) (imgs_width c) (imgs_height c) (imgs_type c)
    (degrees c) (cap_width c) v (temp_buf c).
Definition set_temp_buf (v : option block) (c : context) : context :=
  Context (conf_rotate_deg c) (imgs_width c) (imgs_height c) (imgs_type c)
    (degrees c) (cap_width c) (cap_height c) v.

(** Modelled from the spec: [MOTION_LOG] belongs to the logging
    facility, outside this file; the spec has it receive one warning per
    rejected angle or palette.  A warning records what the call is
    given. *)
Inductive warning :=
| NotMultipleOf90 (deg : Z)
| UnsupportedPalette (type : Z).

(** Modelled from the spec: [mymalloc] lives in another file of the
    program; the spec has it hand out one owned buffer of the requested
    size, and it never returns NULL.  The bytes of a fresh buffer are
    unspecified; they are zero here and nothing below reads them. *)
Definition mymalloc (nbytes : Z) : block := replicate (Z.to_nat nbytes) x00.

(** [rotate_init]: the context afterwards and the warnings logged. *)
Definition rotate_init (cnt : context) : context * list warning :=
  let cnt := set_temp_buf None cnt in
  let '(cnt, log) :=
    if decide (Z.rem (conf_rotate_deg cnt) 90 > 0) then
      (set_degrees 0 (set_rotate_deg 0 cnt),
       [NotMultipleOf90 (conf_rotate_deg cnt)])
    else
      (set_degrees (Z.rem (conf_rotate_deg cnt) 360) cnt, []) in
  let cnt := set_cap_width (imgs_width cnt) cnt in
  let cnt := set_cap_height (imgs_height cnt) cnt in
  let cnt :=
    if decide (degrees cnt = 90 \/ degrees cnt = 270) then
      let cnt := set_imgs_width (cap_height cnt) cnt in
      set_imgs_height (cap_width cnt) cnt
    else cnt in
  if decide (degrees cnt = 0) then (cnt, log)
  else
    let allocate (size : Z) :=
      if decide (degrees cnt = 90 \/ degrees cnt = 270)
      then (set_temp_buf (Some (mymalloc size)) cnt, log)
      else (cnt, log) in
    if decide (imgs_type cnt = VIDEO_PALETTE_YUV420P) then
      allocate (Z.quot (int_mul (int_mul (imgs_width cnt) (imgs_height cnt)) 3) 2)
    else if decide (imgs_type cnt = VIDEO_PALETTE_GREY) then
      allocate (int_mul (imgs_width cnt) (imgs_height cnt))
    else
      (set_degrees 0 cnt, log ++ [UnsupportedPalette (imgs_type cnt)]).

(** [rotate_deinit]: the context afterwards and the buffers handed to
    [free].  The function writes no field: the pointer stays in
    [temp_buf] after the buffer is released. *)
Definition rotate_deinit (cnt : context) : context * list block :=
  match temp_buf cnt with
  | Some buf => (cnt, [buf])
  | None => (cnt, [])
  end.

Section Dispatch.
Variable endian : endianness.

(** [rotate_map(cnt, map)]: the return value, the frame afterwards and
    the scratch buffer afterwards. *)
Definition rotate_map (cnt : context) (map : block)
  : option (Z * block * option block) :=
  let deg := degrees cnt in
  let width := cap_width cnt in
  let height := cap_height cnt in
  let wh := int_mul width height in
  let yuv := bool_decide (imgs_type cnt = VIDEO_PALETTE_YUV420P) in
  let size := if yuv then Z.quot (int_mul wh 3) 2 else wh in
  let wh4 := if yuv then Z.quot wh 4 else 0 in
  let w2 := if yuv then Z.quot width 2 else 0 in
  let h2 := if yuv then Z.quot height 2 else 0 in
  if decide (deg = 90) then
    tmp ← temp_buf cnt;
    tmp ← rot90cw map 0 tmp 0 wh width height;
    tmp ← (if yuv then
             tmp ← rot90cw map wh tmp wh wh4 w2 h2;
             rot90cw map (wh + wh4) tmp (wh + wh4) wh4 w2 h2
           else Some tmp);
    map ← memcpy map tmp size;
    Some (0, map, Some tmp)
  else if decide (deg = 180) then
    map ← reverse_inplace_quad endian map 0 wh;
    map ← (if yuv then
             map ← reverse_inplace_quad endian map wh wh4;
             reverse_inplace_quad endian map (wh + wh4) wh4
           else Some map);
    Some (0, map, temp_buf cnt)
  else if decide (deg = 270) then
    tmp ← temp_buf cnt;
    tmp ← rot90ccw map 0 tmp 0 wh width height;
    tmp ← (if yuv then
             tmp ← rot90ccw map wh tmp wh wh4 w2 h2;
             rot90ccw map (wh + wh4) tmp (wh + wh4) wh4 w2 h2
           else Some tmp);
    map ← memcpy map tmp size;
    Some (0, map, Some tmp)
  else
    Some (-1, map, temp_buf cnt).

End Dispatch.

End Rotate.

Import Rotate.

(** ** Test data *)

(** The test pattern of the 32x16 scenario: byte [i mod 256] at index
    [i]. *)
Definition gradient (n : nat) : block :=
  map (fun i => byte_of_Z (Z.of_nat i mod 256)) (seq 0 n).

(** ** Facts about memory accesses *)

Section MemoryFacts.
Implicit Types (m pre post : block) (b : byte) (p : Z).

Lemma load_app_at pre b post :
    load (pre ++ b :: post) (Z.of_nat (length pre)) = Some b.
Proof.
    unfold load. rewrite decide_True by lia.
    rewrite Nat2Z.id. by apply list_lookup_middle.
Qed.

Lemma store_app_at pre b b' post :
    store (pre ++ b :: post) (Z.of_nat (length pre)) b'
    = Some (pre ++ b' :: post).
Proof.
    unfold store. rewrite decide_True.
    - rewrite Nat2Z.id. f_equal.
      rewrite insert_app_r_alt by lia.
      by rewrite Nat.sub_diag.
    - rewrite length_app. simpl. lia.
Qed.
End MemoryFacts.

(** ** Facts about bytes and words *)

Section WordFacts.

Lemma Z_of_byte_land b : Z.land (Z_of_byte b) (Z.ones 8) = Z_of_byte b.
Proof.
  rewrite Z.land_ones by lia. apply Z.mod_small.
  unfold Z_of_byte. pose proof (Byte.to_N_bounded b). lia.
Qed.

Lemma byte_of_Z_of_byte b : byte_of_Z (Z_of_byte b) = b.
Proof.
  unfold byte_of_Z. change 255 with (Z.ones 8). rewrite Z_of_byte_land.
  unfold Z_of_byte. rewrite N2Z.id, Byte.of_to_N. done.
Qed.

Lemma mask_values :
  255 = Z.ones 8 /\ 0xff00 = Z.shiftl (Z.ones 8) 8 /\
  0xff0000 = Z.shiftl (Z.ones 8) 16 /\ 0xff000000 = Z.shiftl (Z.ones 8) 24.
Proof. done. Qed.

Ltac blast_bytes :=
  unfold byte_at, bswap_32, word_of, uint32;
  destruct mask_values as (M0 & M1 & M2 & M3);
  rewrite ?M0, ?M1, ?M2, ?M3; clear M0 M1 M2 M3;
  simpl Z.mul; Z.bitblast.

Lemma byte_at_bswap_0 x : byte_at 0 (bswap_32 x) = byte_at 3 x.
Proof. blast_bytes. Qed.
Lemma byte_at_bswap_1 x : byte_at 1 (bswap_32 x) = byte_at 2 x.
Proof. blast_bytes. Qed.
Lemma byte_at_bswap_2 x : byte_at 2 (bswap_32 x) = byte_at 1 x.
Proof. blast_bytes. Qed.
Lemma byte_at_bswap_3 x : byte_at 3 (bswap_32 x) = byte_at 0 x.
Proof. blast_bytes. Qed.

Lemma byte_at_word_of b0 b1 b2 b3 :
  let w := word_of (Z_of_byte b0) (Z_of_byte b1) (Z_of_byte b2) (Z_of_byte b3) in
  byte_at 0 w = Z_of_byte b0 /\ byte_at 1 w = Z_of_byte b1 /\
  byte_at 2 w = Z_of_byte b2 /\ byte_at 3 w = Z_of_byte b3.
Proof.
  intros w. subst w.
  rewrite <- (Z_of_byte_land b0), <- (Z_of_byte_land b1),
    <- (Z_of_byte_land b2), <- (Z_of_byte_land b3).
  generalize (Z_of_byte b0) (Z_of_byte b1) (Z_of_byte b2) (Z_of_byte b3).
  intros z0 z1 z2 z3. repeat split; blast_bytes.
Qed.

(** Swapping a word and writing it back leaves its four bytes in the
    opposite order, whatever the byte order of the machine. *)
Lemma bytes_of_word_bswap endian b0 b1 b2 b3 :
  bytes_of_word endian (bswap_32 (word_of_bytes endian b0 b1 b2 b3))
  = [b3; b2; b1; b0].
Proof.
  destruct endian; unfold bytes_of_word, word_of_bytes;
    rewrite byte_at_bswap_0, byte_at_bswap_1, byte_at_bswap_2, byte_at_bswap_3.
  - destruct (byte_at_word_of b0 b1 b2 b3) as (-> & -> & -> & ->).
    by rewrite !byte_of_Z_of_byte.
  - destruct (byte_at_word_of b3 b2 b1 b0) as (-> & -> & -> & ->).
    by rewrite !byte_of_Z_of_byte.
Qed.

End WordFacts.

(** ** Word accesses inside a block *)

Section WordAccess.
Variable endian : endianness.
Implicit Types (m pre post old : block) (p : Z).

Lemma load_at m pre l post p k b :
  m = pre ++ l ++ post -> p = Z.of_nat (length pre) + k -> 0 <= k ->
  l !! Z.to_nat k = Some b -> load m p = Some b.
Proof.
  intros -> -> Hk Hl. unfold load. rewrite decide_True by lia.
  replace (Z.to_nat (Z.of_nat (length pre) + k))
    with (length pre + Z.to_nat k)%nat by lia.
  rewrite lookup_app_r by lia.
  replace (length pre + Z.to_nat k - length pre)%nat with (Z.to_nat k) by lia.
  by apply lookup_app_l_Some.
Qed.

Lemma load32_at m pre b0 b1 b2 b3 post p :
  m = pre ++ [b0; b1; b2; b3] ++ post -> p = Z.of_nat (length pre) ->
  load32 endian m p = Some (word_of_bytes endian b0 b1 b2 b3).
Proof.
  intros Hm Hp. unfold load32.
  rewrite (load_at m pre [b0; b1; b2; b3] post p 0 b0) by (done || lia).
  rewrite (load_at m pre [b0; b1; b2; b3] post (p + 1) 1 b1) by (done || lia).
  rewrite (load_at m pre [b0; b1; b2; b3] post (p + 2) 2 b2) by (done || lia).
  rewrite (load_at m pre [b0; b1; b2; b3] post (p + 3) 3 b3) by (done || lia).
  done.
Qed.

Lemma store_bytes_app bs : forall pre old post,
  length old = length bs ->
  store_bytes (pre ++ old ++ post) (Z.of_nat (length pre)) bs
  = Some (pre ++ bs ++ post).
Proof.
  induction bs as [|b bs IH]; intros pre old post Hlen.
  - destruct old; [done | discriminate].
  - destruct old as [|o old]; [discriminate|]. simpl in Hlen.
    cbn [store_bytes]. change ((o :: old) ++ post) with (o :: old ++ post).
    rewrite store_app_at. cbn [mbind option_bind].
    replace (Z.of_nat (length pre) + 1) with (Z.of_nat (length (pre ++ [b])))
      by (rewrite length_app; simpl; lia).
    replace (pre ++ b :: old ++ post) with ((pre ++ [b]) ++ old ++ post)
      by (by rewrite <- app_assoc).
    rewrite IH by lia. by rewrite <- app_assoc.
Qed.

Lemma bytes_of_word_length w : length (bytes_of_word endian w) = 4%nat.
Proof. by destruct endian. Qed.

Lemma store32_at m pre old post p w :
  m = pre ++ old ++ post -> p = Z.of_nat (length pre) -> length old = 4%nat ->
  store32 endian m p w = Some (pre ++ bytes_of_word endian w ++ post).
Proof.
  intros -> -> Hlen. unfold store32.
  apply store_bytes_app. by rewrite bytes_of_word_length.
Qed.

(** One round of the loop of [reverse_inplace_quad]: the quads at the
    two pointers change places and each comes out byte-reversed. *)
Lemma reverse_round {R} (k : block -> option R)
    pre a0 a1 a2 a3 X b0 b1 b2 b3 post m nsrc ndst :
  m = pre ++ [a0; a1; a2; a3] ++ X ++ [b0; b1; b2; b3] ++ post ->
  nsrc = Z.of_nat (length pre) ->
  ndst = Z.of_nat (length pre) + 4 + Z.of_nat (length X) ->
  (tmp ← bswap_32 <$> load32 endian m ndst;
   v ← load32 endian m nsrc;
   m1 ← store32 endian m ndst (bswap_32 v);
   m2 ← store32 endian m1 nsrc tmp;
   k m2)
  = k (pre ++ [b3; b2; b1; b0] ++ X ++ [a3; a2; a1; a0] ++ post).
Proof.
  intros Hm Hs Hd.
  rewrite (load32_at m (pre ++ [a0; a1; a2; a3] ++ X) b0 b1 b2 b3 post ndst);
    [ | by rewrite Hm, <- !app_assoc | rewrite !length_app; simpl; lia ].
  cbn [fmap option_fmap option_map mbind option_bind].
  rewrite (load32_at m pre a0 a1 a2 a3 (X ++ [b0; b1; b2; b3] ++ post) nsrc)
    by done.
  cbn [mbind option_bind].
  rewrite (store32_at m (pre ++ [a0; a1; a2; a3] ++ X) [b0; b1; b2; b3] post);
    [ | by rewrite Hm, <- !app_assoc | rewrite !length_app; simpl; lia | done ].
  cbn [mbind option_bind].
  rewrite !bytes_of_word_bswap.
  erewrite (store32_at _ pre [a0; a1; a2; a3]
              (X ++ [a3; a2; a1; a0] ++ post));
    [ | by rewrite <- !app_assoc | done | done ].
  by rewrite bytes_of_word_bswap.
Qed.

Lemma split_last4 (B : block) n :
  length B = (4 + n)%nat ->
  exists B' b0 b1 b2 b3, B = B' ++ [b0; b1; b2; b3] /\ length B' = n.
Proof.
  intros Hlen. rewrite <- (take_drop n B).
  assert (Hd : length (drop n B) = 4%nat) by (rewrite length_drop; lia).
  destruct (drop n B) as [|b0 [|b1 [|b2 [|b3 [|? ?]]]]]; try discriminate.
  exists (take n B), b0, b1, b2, b3. split; [done|].
  rewrite length_take. lia.
Qed.

(** The loop, started on two runs [A] and [B] of [n] quads each around a
    middle of at most four bytes, swaps the runs, reverses each and
    leaves the middle alone. *)
Lemma reverse_loop_spec n : forall fuel pre A mid B post nsrc ndst,
  length A = (4 * n)%nat -> length B = (4 * n)%nat ->
  (length mid <= 4)%nat -> (n <= fuel)%nat ->
  nsrc = Z.of_nat (length pre) ->
  ndst = Z.of_nat (length pre) + Z.of_nat (length (A ++ mid ++ B)) - 4 ->
  reverse_loop endian fuel (pre ++ A ++ mid ++ B ++ post) nsrc ndst
  = Some (pre ++ rev B ++ mid ++ rev A ++ post).
Proof.
  induction n as [|n IH]; intros fuel pre A mid B post nsrc ndst HA HB Hmid Hfuel Hs Hd.
  - destruct A; [|discriminate]. destruct B; [|discriminate].
    rewrite app_nil_r in Hd. simpl in Hd.
    destruct fuel; simpl; rewrite decide_False by lia; done.
  - destruct A as [|a0 [|a1 [|a2 [|a3 A]]]]; try (simpl in HA; lia).
    destruct (split_last4 B (4 * n)) as (B' & b0 & b1 & b2 & b3 & -> & HB');
      [lia|].
    destruct fuel as [|fuel]; [lia|].
    rewrite !length_app in Hd. simpl in HA, Hd.
    cbn [reverse_loop]. rewrite decide_True by lia.
    rewrite (reverse_round _ pre a0 a1 a2 a3 (A ++ mid ++ B') b0 b1 b2 b3 post);
      [ | by simpl; rewrite <- !app_assoc | done | rewrite !length_app; lia ].
    replace (pre ++ [b3; b2; b1; b0] ++ (A ++ mid ++ B') ++ [a3; a2; a1; a0] ++ post)
      with ((pre ++ [b3; b2; b1; b0]) ++ A ++ mid ++ B' ++ ([a3; a2; a1; a0] ++ post))
      by (by rewrite <- !app_assoc).
    rewrite (IH fuel); [ | lia | lia | lia | lia | | ].
    + f_equal. rewrite rev_app_distr. simpl. by rewrite <- !app_assoc.
    + rewrite length_app. simpl. lia.
    + rewrite !length_app. simpl. lia.
Qed.

End WordAccess.

(** ** The half-turn *)

Section HalfTurn.
Variable endian : endianness.
Implicit Types (pre ext post A mid B : block).

Lemma reverse_inplace_quad_parts n pre A mid B post :
  length A = (4 * n)%nat -> length B = (4 * n)%nat -> (length mid <= 4)%nat ->
  reverse_inplace_quad endian (pre ++ A ++ mid ++ B ++ post)
    (Z.of_nat (length pre)) (Z.of_nat (length (A ++ mid ++ B)))
  = Some (pre ++ rev B ++ mid ++ rev A ++ post).
Proof.
  intros HA HB Hmid. unfold reverse_inplace_quad.
  apply (reverse_loop_spec endian n); try done.
  rewrite Nat2Z.id, !length_app. lia.
Qed.

(** An extent of whole quads splits into two runs of equally many quads
    around a middle that is empty or one quad. *)
Lemma quad_parts ext q :
  length ext = (4 * q)%nat ->
  exists n A mid B,
    ext = A ++ mid ++ B /\ length A = (4 * n)%nat /\ length B = (4 * n)%nat /\
    length mid = (4 * (q - 2 * n))%nat /\ (q - 2 * n <= 1)%nat.
Proof.
  intros Hlen. set (n := (q / 2)%nat).
  assert (Hn : (2 * n <= q < 2 * n + 2)%nat).
  { subst n. pose proof (Nat.div_mod_eq q 2).
    pose proof (Nat.mod_upper_bound q 2). lia. }
  exists n, (take (4 * n) ext),
    (take (4 * (q - 2 * n)) (drop (4 * n) ext)),
    (drop (4 * (q - 2 * n)) (drop (4 * n) ext)).
  rewrite !take_drop, !length_take, !length_drop. repeat split; lia.
Qed.

End HalfTurn.

(** ** Byte accesses, pointwise *)

Section ByteAccess.
Implicit Types (m : block) (p k : Z) (b : byte).

Lemma load_is_Some m p : is_Some (load m p) <-> 0 <= p < Z.of_nat (length m).
Proof.
  unfold load. case_decide.
  - rewrite lookup_lt_is_Some. lia.
  - split; [intros [? ?]; discriminate | lia].
Qed.

Lemma load_None m p : load m p = None <-> ~ (0 <= p < Z.of_nat (length m)).
Proof. rewrite <- load_is_Some, eq_None_not_Some. done. Qed.

Lemma store_Some m p b :
  0 <= p < Z.of_nat (length m) ->
  exists m', store m p b = Some m' /\ length m' = length m /\
    forall k, load m' k = if decide (k = p) then Some b else load m k.
Proof.
  intros Hp. unfold store. rewrite decide_True by done.
  eexists. split; [done|]. split; [by rewrite length_insert|].
  intros k. unfold load. destruct (decide (k = p)) as [->|Hk].
  - rewrite decide_True by lia.
    apply list_lookup_insert_eq. lia.
  - case_decide; [|done]. apply list_lookup_insert_ne. lia.
Qed.

(** Two blocks with the same bytes at every offset are the same block. *)
Lemma block_ext m1 m2 : (forall k, load m1 k = load m2 k) -> m1 = m2.
Proof.
  intros H. apply list_eq. intros i.
  specialize (H (Z.of_nat i)). unfold load in H.
  rewrite !decide_True, Nat2Z.id in H by lia. done.
Qed.

Lemma load_rev m k :
  load (rev m) k = load m (Z.of_nat (length m) - 1 - k).
Proof.
  destruct (decide (0 <= k < Z.of_nat (length m))) as [Hk|Hk].
  - unfold load. rewrite !decide_True by lia.
    rewrite rev_alt. change (rev_append m []) with (reverse m).
    rewrite reverse_lookup by lia.
    f_equal. lia.
  - transitivity (@None byte); [|symmetry]; apply load_None;
      rewrite ?length_rev; lia.
Qed.

End ByteAccess.

(** ** The quarter-turns, loop by loop *)

Section QuarterTurn.
Variables (srcm : block) (width height : Z).

(** The inner loop of [rot90cw] with [n] rounds to go copies
    [src, src - width, ...] to [dst, dst + 1, ...]. *)
Lemma rot90cw_column_spec (n : nat) : forall j src dstm dst,
  Z.of_nat n = height - j ->
  (forall i, 0 <= i < Z.of_nat n ->
     0 <= src - i * width < Z.of_nat (length srcm)) ->
  0 <= dst -> dst + Z.of_nat n <= Z.of_nat (length dstm) ->
  exists dstm',
    rot90cw_column n srcm width height j src dstm dst
      = Some (dstm', dst + Z.of_nat n) /\
    length dstm' = length dstm /\
    forall k, load dstm' k =
      if decide (dst <= k < dst + Z.of_nat n)
      then load srcm (src - (k - dst) * width)
      else load dstm k.
Proof.
  induction n as [|n IH]; intros j src dstm dst Hn Hsrc Hd0 Hd1.
  - exists dstm. simpl. rewrite decide_False by lia.
    repeat split; [do 2 f_equal; lia|].
    intros k. by rewrite decide_False by lia.
  - cbn [rot90cw_column]. rewrite decide_True by lia.
    destruct (proj2 (load_is_Some srcm src)) as [b Hb].
    { specialize (Hsrc 0). lia. }
    rewrite Hb. cbn [mbind option_bind].
    destruct (store_Some dstm dst b) as (dstm1 & -> & Hlen1 & Hload1); [lia|].
    cbn [mbind option_bind].
    destruct (IH (j + 1) (src - width) dstm1 (dst + 1))
      as (dstm' & -> & Hlen' & Hload'); try lia.
    { intros i Hi. specialize (Hsrc (i + 1)). lia. }
    exists dstm'. split; [do 2 f_equal; lia|]. split; [congruence|].
    intros k. rewrite Hload', Hload1.
    destruct (decide (k = dst)) as [->|Hk].
    + rewrite decide_False, decide_True by lia.
      rewrite <- Hb. f_equal. lia.
    + destruct (decide (dst + 1 <= k < dst + 1 + Z.of_nat n)).
      * rewrite decide_True by lia. f_equal. lia.
      * by rewrite decide_False by lia.
Qed.

(** The outer loop of [rot90cw] with [n] columns to go. *)
Lemma rot90cw_columns_spec (n : nat) : forall base endp dstm dst,
  Z.of_nat n = endp - base -> 0 <= height ->
  (forall c i, 0 <= c < Z.of_nat n -> 0 <= i < height ->
     0 <= base + c - i * width < Z.of_nat (length srcm)) ->
  0 <= dst -> dst + Z.of_nat n * height <= Z.of_nat (length dstm) ->
  exists dstm',
    rot90cw_columns n srcm width height base endp dstm dst
      = Some (dstm', dst + Z.of_nat n * height) /\
    length dstm' = length dstm /\
    forall k, load dstm' k =
      if decide (dst <= k < dst + Z.of_nat n * height)
      then load srcm (base + (k - dst) / height
                      - ((k - dst) mod height) * width)
      else load dstm k.
Proof.
  induction n as [|n IH]; intros base endp dstm dst Hn Hh Hsrc Hd0 Hd1.
  - exists dstm. simpl. rewrite decide_False by lia.
    repeat split; [do 2 f_equal; lia|].
    intros k. by rewrite decide_False by lia.
  - cbn [rot90cw_columns]. rewrite decide_True by lia.
    assert (Hnh : 0 <= Z.of_nat n * height) by nia.
    destruct (rot90cw_column_spec (Z.to_nat height) 0 base dstm dst)
      as (dstm1 & -> & Hlen1 & Hload1); try lia.
    { intros i Hi. specialize (Hsrc 0 i). rewrite Z.add_0_r in Hsrc.
      apply Hsrc; lia. }
    cbn [mbind option_bind]. rewrite Z2Nat.id by lia.
    destruct (IH (base + 1) endp dstm1 (dst + height))
      as (dstm' & -> & Hlen' & Hload'); try lia.
    { intros c i Hc Hi. specialize (Hsrc (c + 1) i).
      replace (base + 1 + c) with (base + (c + 1)) by lia.
      apply Hsrc; lia. }
    exists dstm'. split; [do 2 f_equal; lia|]. split; [congruence|].
    intros k. rewrite Hload', Hload1. rewrite Z2Nat.id by lia.
    destruct (decide (dst + height <= k < dst + height + Z.of_nat n * height)).
    + rewrite decide_True by lia. f_equal.
      replace (k - (dst + height)) with (k - dst + (-1) * height) by lia.
      rewrite Z.div_add, Z.mod_add by lia. lia.
    + destruct (decide (dst <= k < dst + height)).
      * rewrite decide_True by lia.
        rewrite Z.div_small, Z.mod_small by lia. f_equal. lia.
      * by rewrite decide_False by lia.
Qed.

(** The inner loop of [rot90ccw] fills [dst, dst - 1, ...]. *)
Lemma rot90ccw_column_spec (n : nat) : forall j src dstm dst,
  Z.of_nat n = height - j ->
  (forall i, 0 <= i < Z.of_nat n ->
     0 <= src - i * width < Z.of_nat (length srcm)) ->
  dst < Z.of_nat (length dstm) -> -1 <= dst - Z.of_nat n ->
  exists dstm',
    rot90ccw_column n srcm width height j src dstm dst
      = Some (dstm', dst - Z.of_nat n) /\
    length dstm' = length dstm /\
    forall k, load dstm' k =
      if decide (dst - Z.of_nat n < k <= dst)
      then load srcm (src - (dst - k) * width)
      else load dstm k.
Proof.
  induction n as [|n IH]; intros j src dstm dst Hn Hsrc Hd0 Hd1.
  - exists dstm. simpl. rewrite decide_False by lia.
    repeat split; [do 2 f_equal; lia|].
    intros k. by rewrite decide_False by lia.
  - cbn [rot90ccw_column]. rewrite decide_True by lia.
    destruct (proj2 (load_is_Some srcm src)) as [b Hb].
    { specialize (Hsrc 0). lia. }
    rewrite Hb. cbn [mbind option_bind].
    destruct (store_Some dstm dst b) as (dstm1 & -> & Hlen1 & Hload1); [lia|].
    cbn [mbind option_bind].
    destruct (IH (j + 1) (src - width) dstm1 (dst - 1))
      as (dstm' & -> & Hlen' & Hload'); try lia.
    { intros i Hi. specialize (Hsrc (i + 1)). lia. }
    exists dstm'. split; [do 2 f_equal; lia|]. split; [congruence|].
    intros k. rewrite Hload', Hload1.
    destruct (decide (k = dst)) as [->|Hk].
    + rewrite decide_False, decide_True by lia.
      rewrite <- Hb. f_equal. lia.
    + destruct (decide (dst - 1 - Z.of_nat n < k <= dst - 1)).
      * rewrite decide_True by lia. f_equal. lia.
      * by rewrite decide_False by lia.
Qed.

(** The outer loop of [rot90ccw] with [n] columns to go. *)
Lemma rot90ccw_columns_spec (n : nat) : forall base endp dstm dst,
  Z.of_nat n = endp - base -> 0 <= height ->
  (forall c i, 0 <= c < Z.of_nat n -> 0 <= i < height ->
     0 <= base + c - i * width < Z.of_nat (length srcm)) ->
  dst < Z.of_nat (length dstm) -> -1 <= dst - Z.of_nat n * height ->
  exists dstm',
    rot90ccw_columns n srcm width height base endp dstm dst
      = Some (dstm', dst - Z.of_nat n * height) /\
    length dstm' = length dstm /\
    forall k, load dstm' k =
      if decide (dst - Z.of_nat n * height < k <= dst)
      then load srcm (base + (dst - k) / height
                      - ((dst - k) mod height) * width)
      else load dstm k.
Proof.
  induction n as [|n IH]; intros base endp dstm dst Hn Hh Hsrc Hd0 Hd1.
  - exists dstm. simpl. rewrite decide_False by lia.
    repeat split; [do 2 f_equal; lia|].
    intros k. by rewrite decide_False by lia.
  - cbn [rot90ccw_columns]. rewrite decide_True by lia.
    assert (Hnh : 0 <= Z.of_nat n * height) by nia.
    destruct (rot90ccw_column_spec (Z.to_nat height) 0 base dstm dst)
      as (dstm1 & -> & Hlen1 & Hload1); try lia.
    { intros i Hi. specialize (Hsrc 0 i). rewrite Z.add_0_r in Hsrc.
      apply Hsrc; lia. }
    cbn [mbind option_bind]. rewrite Z2Nat.id by lia.
    destruct (IH (base + 1) endp dstm1 (dst - height))
      as (dstm' & -> & Hlen' & Hload'); try lia.
    { intros c i Hc Hi. specialize (Hsrc (c + 1) i).
      replace (base + 1 + c) with (base + (c + 1)) by lia.
      apply Hsrc; lia. }
    exists dstm'. split; [do 2 f_equal; lia|]. split; [congruence|].
    intros k. rewrite Hload', Hload1. rewrite Z2Nat.id by lia.
    destruct (decide (dst - height - Z.of_nat n * height < k <= dst - height)).
    + rewrite decide_True by lia. f_equal.
      replace (dst - height - k) with (dst - k + (-1) * height) by lia.
      rewrite Z.div_add, Z.mod_add by lia. lia.
    + destruct (decide (dst - height < k <= dst)).
      * rewrite decide_True by lia.
        rewrite Z.div_small, Z.mod_small by lia. f_equal. lia.
      * by rewrite decide_False by lia.
Qed.

(** Every source offset the two transforms read lies in the extent. *)
Lemma source_in_extent src size c i :
  0 <= src -> src + size <= Z.of_nat (length srcm) -> size = width * height ->
  0 <= c < width -> 0 <= i < height ->
  0 <= src + size - width + c - i * width < Z.of_nat (length srcm).
Proof. intros. nia. Qed.

(** [rot90cw] on an extent of [width * height] bytes: the [t]-th byte
    of the destination extent comes from column [t / height] of the
    source, row [t mod height] counted from the bottom. *)
Lemma rot90cw_spec src dstm dst size :
  0 <= width -> 0 <= height -> size = width * height ->
  0 <= src -> src + size <= Z.of_nat (length srcm) ->
  0 <= dst -> dst + size <= Z.of_nat (length dstm) ->
  exists dstm',
    rot90cw srcm src dstm dst size width height = Some dstm' /\
    length dstm' = length dstm /\
    forall k, load dstm' k =
      if decide (dst <= k < dst + size)
      then load srcm (src + size - width + (k - dst) / height
                      - ((k - dst) mod height) * width)
      else load dstm k.
Proof.
  intros Hw Hh Hsize Hs0 Hs1 Hd0 Hd1. unfold rot90cw.
  destruct (rot90cw_columns_spec (Z.to_nat width)
              (src + size - width) (src + size) dstm dst)
    as (dstm' & -> & Hlen' & Hload'); try lia.
  { intros c i Hc Hi. apply source_in_extent; lia. }
  exists dstm'. split; [done|]. split; [done|].
  intros k. rewrite Hload', Z2Nat.id by lia. by rewrite <- Hsize.
Qed.

(** [rot90ccw]: the same source bytes, met in the same order, fill the
    destination extent from its last byte down. *)
Lemma rot90ccw_spec src dstm dst size :
  0 <= width -> 0 <= height -> size = width * height ->
  0 <= src -> src + size <= Z.of_nat (length srcm) ->
  0 <= dst -> dst + size <= Z.of_nat (length dstm) ->
  exists dstm',
    rot90ccw srcm src dstm dst size width height = Some dstm' /\
    length dstm' = length dstm /\
    forall k, load dstm' k =
      if decide (dst <= k < dst + size)
      then load srcm (src + size - width + (dst + size - 1 - k) / height
                      - ((dst + size - 1 - k) mod height) * width)
      else load dstm k.
Proof.
  intros Hw Hh Hsize Hs0 Hs1 Hd0 Hd1. unfold rot90ccw.
  assert (0 <= size) by nia.
  destruct (rot90ccw_columns_spec (Z.to_nat width)
              (src + size - width) (src + size) dstm (dst + size - 1))
    as (dstm' & -> & Hlen' & Hload'); try lia.
  { intros c i Hc Hi. apply source_in_extent; lia. }
  exists dstm'. split; [done|]. split; [done|].
  intros k. rewrite Hload', Z2Nat.id by lia. rewrite <- Hsize.
  destruct (decide (dst <= k < dst + size)).
  - by rewrite decide_True by lia.
  - by rewrite decide_False by lia.
Qed.

End QuarterTurn.

(** ** The loop bounds are generous

    Each loop is given at least as many rounds as it can use, and more
    rounds never change its result: a [None] is always an access
    outside a block, never an exhausted bound. *)

Section LoopBounds.
Variable endian : endianness.

Lemma reverse_loop_fuel (fuel : nat) : forall fuel' m nsrc ndst,
  ndst - nsrc <= 8 * Z.of_nat fuel -> (fuel <= fuel')%nat ->
  reverse_loop endian fuel' m nsrc ndst = reverse_loop endian fuel m nsrc ndst.
Proof.
  induction fuel as [|fuel IH]; intros fuel' m nsrc ndst Hgap Hle.
  - destruct fuel'; simpl; by rewrite !decide_False by lia.
  - destruct fuel' as [|fuel']; [lia|]. cbn [reverse_loop].
    case_decide; [|done].
    destruct (load32 endian m ndst) as [w|]; [|done].
    cbn [fmap option_fmap option_map mbind option_bind].
    destruct (load32 endian m nsrc) as [v|]; [|done].
    cbn [mbind option_bind].
    destruct (store32 endian m ndst (bswap_32 v)) as [m1|]; [|done].
    cbn [mbind option_bind].
    destruct (store32 endian m1 nsrc (bswap_32 w)) as [m2|]; [|done].
    cbn [mbind option_bind]. apply IH; lia.
Qed.

(** The bound [reverse_inplace_quad] passes is enough for any [size]. *)
Lemma reverse_inplace_quad_fuel m src size fuel' :
  (Z.to_nat size <= fuel')%nat ->
  reverse_loop endian fuel' m src (src + size - 4)
  = reverse_inplace_quad endian m src size.
Proof. intros Hle. unfold reverse_inplace_quad. apply reverse_loop_fuel; lia. Qed.

Lemma rot90cw_column_fuel (fuel : nat) :
  forall fuel' srcm width height j src dstm dst,
  height - j <= Z.of_nat fuel -> (fuel <= fuel')%nat ->
  rot90cw_column fuel' srcm width height j src dstm dst
  = rot90cw_column fuel srcm width height j src dstm dst.
Proof.
  induction fuel as [|fuel IH]; intros fuel' srcm width height j src dstm dst Hgap Hle.
  - destruct fuel'; simpl; by rewrite !decide_False by lia.
  - destruct fuel' as [|fuel']; [lia|]. cbn [rot90cw_column].
    case_decide; [|done].
    destruct (load srcm src) as [b|]; [|done]. cbn [mbind option_bind].
    destruct (store dstm dst b) as [dstm1|]; [|done]. cbn [mbind option_bind].
    apply IH; lia.
Qed.

Lemma rot90cw_columns_fuel (fuel : nat) :
  forall fuel' srcm width height base endp dstm dst,
  endp - base <= Z.of_nat fuel -> (fuel <= fuel')%nat ->
  rot90cw_columns fuel' srcm width height base endp dstm dst
  = rot90cw_columns fuel srcm width height base endp dstm dst.
Proof.
  induction fuel as [|fuel IH]; intros fuel' srcm width height base endp dstm dst Hgap Hle.
  - destruct fuel'; simpl; by rewrite !decide_False by lia.
  - destruct fuel' as [|fuel']; [lia|]. cbn [rot90cw_columns].
    case_decide; [|done].
    destruct (rot90cw_column _ _ _ _ _ _ _ _) as [[dstm1 dst1]|]; [|done].
    cbn [mbind option_bind]. apply IH; lia.
Qed.

Lemma rot90ccw_column_fuel (fuel : nat) :
  forall fuel' srcm width height j src dstm dst,
  height - j <= Z.of_nat fuel -> (fuel <= fuel')%nat ->
  rot90ccw_column fuel' srcm width height j src dstm dst
  = rot90ccw_column fuel srcm width height j src dstm dst.
Proof.
  induction fuel as [|fuel IH]; intros fuel' srcm width height j src dstm dst Hgap Hle.
  - destruct fuel'; simpl; by rewrite !decide_False by lia.
  - destruct fuel' as [|fuel']; [lia|]. cbn [rot90ccw_column].
    case_decide; [|done].
    destruct (load srcm src) as [b|]; [|done]. cbn [mbind option_bind].
    destruct (store dstm dst b) as [dstm1|]; [|done]. cbn [mbind option_bind].
    apply IH; lia.
Qed.

Lemma rot90ccw_columns_fuel (fuel : nat) :
  forall fuel' srcm width height base endp dstm dst,
  endp - base <= Z.of_nat fuel -> (fuel <= fuel')%nat ->
  rot90ccw_columns fuel' srcm width height base endp dstm dst
  = rot90ccw_columns fuel srcm width height base endp dstm dst.
Proof.
  induction fuel as [|fuel IH]; intros fuel' srcm width height base endp dstm dst Hgap Hle.
  - destruct fuel'; simpl; by rewrite !decide_False by lia.
  - destruct fuel' as [|fuel']; [lia|]. cbn [rot90ccw_columns].
    case_decide; [|done].
    destruct (rot90ccw_column _ _ _ _ _ _ _ _) as [[dstm1 dst1]|]; [|done].
    cbn [mbind option_bind]. apply IH; lia.
Qed.

Lemma rot90cw_fuel srcm src dstm dst size width height fuel' :
  (Z.to_nat width <= fuel')%nat ->
  fst <$> rot90cw_columns fuel' srcm width height
            (src + size - width) (src + size) dstm dst
  = rot90cw srcm src dstm dst size width height.
Proof.
  intros Hle. unfold rot90cw. f_equal. apply rot90cw_columns_fuel; lia.
Qed.

Lemma rot90ccw_fuel srcm src dstm dst size width height fuel' :
  (Z.to_nat width <= fuel')%nat ->
  fst <$> rot90ccw_columns fuel' srcm width height
            (src + size - width) (src + size) dstm (dst + size - 1)
  = rot90ccw srcm src dstm dst size width height.
Proof.
  intros Hle. unfold rot90ccw. f_equal. apply rot90ccw_columns_fuel; lia.
Qed.

End LoopBounds.

(** ** Running the model

    A 3x2 raster [0 1 2 / 3 4 5] turned both ways, a 4x2 greyscale
    frame and a 16x16 planar frame sent through [rotate_init] and
    [rotate_map]. *)

Example rot90cw_3x2 :
  rot90cw (gradient 6) 0 (replicate 6 xff) 0 6 3 2
  = Some [x03; x00; x04; x01; x05; x02].
Proof. reflexivity. Qed.

Example rot90ccw_3x2 :
  rot90ccw (gradient 6) 0 (replicate 6 xff) 0 6 3 2
  = Some [x02; x05; x01; x04; x00; x03].
Proof. reflexivity. Qed.

Example rotate_map_grey_90 :
  let cnt := (rotate_init (Context 90 4 2 VIDEO_PALETTE_GREY 0 0 0 None)).1 in
  (imgs_width cnt, imgs_height cnt) = (2, 4) /\
  fst <$> rotate_map LittleEndian cnt (gradient 8)
  = Some (0, [x04; x00; x05; x01; x06; x02; x07; x03]).
Proof. split; reflexivity. Qed.

Example rotate_map_yuv_180 :
  let cnt :=
    (rotate_init (Context 180 16 16 VIDEO_PALETTE_YUV420P 0 0 0 None)).1 in
  let frame := gradient 384 in
  rotate_map BigEndian cnt frame
  = Some (0, rev (take 256 frame) ++ rev (take 64 (drop 256 frame))
             ++ rev (drop 320 frame), None).
Proof. vm_compute. reflexivity. Qed.

(** ** Raster cells *)

Lemma cell_div_mod (x y h : Z) :
  0 <= y < h -> (x * h + y) / h = x /\ (x * h + y) mod h = y.
Proof.
  intros Hy. split.
  - rewrite Z.div_add_l by lia. rewrite Z.div_small by lia. lia.
  - rewrite Z.add_comm, Z.mod_add by lia. by apply Z.mod_small.
Qed.

(** ** Set-up: [rotate_init] *)

(** Case analysis on a test whose condition holds no further test. *)
Ltac case_inner_decide :=
  match goal with
  | |- context [@decide ?P ?d] =>
      lazymatch P with
      | context [@decide _ _] => fail
      | _ => destruct (@decide P d)
      end
  end.

Lemma int_wrap_id z : - 2 ^ 31 <= z < 2 ^ 31 -> int_wrap z = z.
Proof. intros Hz. unfold int_wrap. rewrite Z.mod_small by lia. lia. Qed.

Lemma mymalloc_length n : Z.of_nat (length (mymalloc n)) = Z.max 0 n.
Proof. unfold mymalloc. rewrite length_replicate. lia. Qed.

(** For a request that is a non-negative multiple of 90 the stored
    angle is the request reduced modulo 360 (or 0 when the palette is
    not supported), hence one of the four right angles. *)
Lemma rotate_init_normalizes_nonnegative (cnt : context) (k : Z) :
  0 <= k -> conf_rotate_deg cnt = 90 * k ->
  degrees (rotate_init cnt).1
    = degrees (rotate_init (set_rotate_deg ((90 * k) mod 360) cnt)).1 /\
  (degrees (rotate_init cnt).1 = 0 \/ degrees (rotate_init cnt).1 = 90 \/
   degrees (rotate_init cnt).1 = 180 \/ degrees (rotate_init cnt).1 = 270).
Proof.
  intros Hk Hdeg. destruct cnt as [deg w h ty d cw ch tb]. simpl in Hdeg.
  subst deg. unfold rotate_init. cbn.
  assert (Hr90 : Z.rem (90 * k) 90 = 0).
  { rewrite Z.rem_mod_nonneg by lia. rewrite Z.mul_comm. apply Z.mod_mul. lia. }
  assert (Hr360 : Z.rem (90 * k) 360 = (90 * k) mod 360)
    by (apply Z.rem_mod_nonneg; lia).
  assert (Hm : exists q, 0 <= q < 4 /\ (90 * k) mod 360 = 90 * q).
  { exists (k mod 4). split; [apply Z.mod_pos_bound; lia|].
    replace 360 with (90 * 4) by lia.
    rewrite Z.mul_mod_distr_l by lia. done. }
  destruct Hm as (q & Hq & Hm).
  assert (Hr90' : Z.rem ((90 * k) mod 360) 90 = 0).
  { rewrite Hm, Z.rem_mod_nonneg by lia. rewrite Z.mul_comm. apply Z.mod_mul. lia. }
  assert (Hr360' : Z.rem ((90 * k) mod 360) 360 = (90 * k) mod 360).
  { rewrite Z.rem_mod_nonneg by lia. apply Z.mod_mod. lia. }
  rewrite Hr90, Hr90', Hr360, Hr360'. cbn.
  assert (Hcases : q = 0 \/ q = 1 \/ q = 2 \/ q = 3) by lia.
  rewrite Hm.
  destruct Hcases as [-> | [-> | [-> | ->]]]; cbn;
    repeat (case_decide; cbn); auto; lia.
Qed.

(** A request that is positive and not a multiple of 90 disables
    rotation: angle 0, no scratch buffer, one warning. *)
Lemma rotate_init_rejects_positive_off_angle (cnt : context) :
  0 < conf_rotate_deg cnt -> Z.rem (conf_rotate_deg cnt) 90 <> 0 ->
  degrees (rotate_init cnt).1 = 0 /\ temp_buf (rotate_init cnt).1 = None /\
  conf_rotate_deg (rotate_init cnt).1 = 0 /\
  (rotate_init cnt).2 = [NotMultipleOf90 (conf_rotate_deg cnt)].
Proof.
  intros Hpos Hrem. destruct cnt as [deg w h ty d cw ch tb]. simpl in *.
  pose proof (Z.rem_nonneg deg 90). unfold rotate_init. cbn.
  rewrite decide_True by lia. cbn. done.
Qed.

(** ** The per-frame entry point: [rotate_map] *)

Section DispatchFacts.
Variable endian : endianness.

(** An angle other than 90, 180 and 270 takes the [default] branch. *)
Lemma rotate_map_default (cnt : context) (map : block) :
  degrees cnt <> 90 -> degrees cnt <> 180 -> degrees cnt <> 270 ->
  rotate_map endian cnt map = Some (-1, map, temp_buf cnt).
Proof.
  intros H90 H180 H270. unfold rotate_map.
  by rewrite !decide_False by done.
Qed.

(** The three rotating branches end in [return 0]. *)
Lemma rotate_map_rotating (cnt : context) (map map' : block) r tmp' :
  degrees cnt = 90 \/ degrees cnt = 180 \/ degrees cnt = 270 ->
  rotate_map endian cnt map = Some (r, map', tmp') -> r = 0.
Proof.
  intros Hdeg. unfold rotate_map.
  repeat case_decide; try lia; intros Hrun; simplify_option_eq; done.
Qed.

(** The half-turn of an extent of whole quads stays inside the block
    and keeps its length. *)
Lemma reverse_inplace_quad_ok (m : block) (src size : Z) :
  0 <= src -> 0 <= size -> src + size <= Z.of_nat (length m) -> (4 | size) ->
  exists m', reverse_inplace_quad endian m src size = Some m' /\
             length m' = length m.
Proof.
  intros Hsrc Hsize Hfit [q Hq].
  set (pre := take (Z.to_nat src) m).
  set (ext := take (Z.to_nat size) (drop (Z.to_nat src) m)).
  set (post := drop (Z.to_nat size) (drop (Z.to_nat src) m)).
  assert (Hm : pre ++ ext ++ post = m)
    by (subst pre ext post; by rewrite !take_drop).
  assert (Hp : Z.of_nat (length pre) = src)
    by (subst pre; rewrite length_take; lia).
  assert (He : Z.of_nat (length ext) = size)
    by (subst ext; rewrite length_take, length_drop; lia).
  destruct (quad_parts ext (Z.to_nat q))
    as (n & A & mid & B & HAB & HA & HB & Hmid & Hle); [lia|].
  exists (pre ++ rev B ++ mid ++ rev A ++ post). split.
  - rewrite <- Hm, <- Hp, <- He, HAB, <- !app_assoc.
    apply reverse_inplace_quad_parts with (n := n); lia.
  - rewrite <- Hm, HAB, !length_app, !length_rev. lia.
Qed.

(** The sizes [rotate_map] computes for capture dimensions that are
    multiples of 16. *)
Lemma plane_sizes (a b : Z) :
  0 <= a -> 0 <= b -> 16 * a * (16 * b) * 3 < 2 ^ 31 ->
  int_mul (16 * a) (16 * b) = 256 * (a * b) /\
  Z.quot (int_mul (256 * (a * b)) 3) 2 = 384 * (a * b) /\
  Z.quot (256 * (a * b)) 4 = 64 * (a * b) /\
  Z.quot (16 * a) 2 = 8 * a /\ Z.quot (16 * b) 2 = 8 * b.
Proof.
  intros Ha Hb Hfit.
  assert (0 <= a * b) by nia.
  unfold int_mul. rewrite !int_wrap_id by nia.
  repeat split.
  - lia.
  - replace (256 * (a * b) * 3) with (384 * (a * b) * 2) by lia.
    apply Z.quot_mul. lia.
  - replace (256 * (a * b)) with (64 * (a * b) * 4) by lia.
    apply Z.quot_mul. lia.
  - replace (16 * a) with (8 * a * 2) by lia. apply Z.quot_mul. lia.
  - replace (16 * b) with (8 * b * 2) by lia. apply Z.quot_mul. lia.
Qed.

(** With capture dimensions that are multiples of 16, a frame of the
    size of the format and, for the quarter-turns, a scratch buffer that
    can hold a frame, the three rotating branches run to their
    [return 0]. *)
Lemma rotate_map_succeeds (cnt : context) (map : block) (a b : Z) :
  degrees cnt = 90 \/ degrees cnt = 180 \/ degrees cnt = 270 ->
  0 <= a -> 0 <= b -> cap_width cnt = 16 * a -> cap_height cnt = 16 * b ->
  16 * a * (16 * b) * 3 < 2 ^ 31 ->
  let size :=
    if decide (imgs_type cnt = VIDEO_PALETTE_YUV420P)
    then 384 * (a * b) else 256 * (a * b) in
  Z.of_nat (length map) = size ->
  (degrees cnt <> 180 ->
     exists tmp, temp_buf cnt = Some tmp /\ size <= Z.of_nat (length tmp)) ->
  exists map' tmp',
    rotate_map endian cnt map = Some (0, map', tmp') /\
    length map' = length map.
Proof.
  intros Hdeg Ha Hb HW HH Hfit size Hmap Htmp.
  destruct (plane_sizes a b Ha Hb Hfit) as (Hwh & Hsz & Hwh4 & Hw2 & Hh2).
  assert (Hab : 0 <= a * b) by nia.
  unfold rotate_map. rewrite HW, HH, Hwh.
  destruct (decide (imgs_type cnt = VIDEO_PALETTE_YUV420P)) as [Hyuv|Hgrey];
    [rewrite bool_decide_eq_true_2 by done
    |rewrite bool_decide_eq_false_2 by done]; subst size.
  - rewrite Hsz, Hwh4, Hw2, Hh2.
    destruct Hdeg as [Hd | [Hd | Hd]]; rewrite Hd.
    + destruct Htmp as (tmp & -> & Hlen); [lia|].
      rewrite decide_True by done. cbn [mbind option_bind].
      destruct (rot90cw_spec map (16 * a) (16 * b) 0 tmp 0 (256 * (a * b)))
        as (t1 & -> & Hl1 & _); try lia.
      cbn [mbind option_bind].
      destruct (rot90cw_spec map (8 * a) (8 * b) (256 * (a * b)) t1
                  (256 * (a * b)) (64 * (a * b)))
        as (t2 & -> & Hl2 & _); try lia.
      cbn [mbind option_bind].
      destruct (rot90cw_spec map (8 * a) (8 * b)
                  (256 * (a * b) + 64 * (a * b)) t2
                  (256 * (a * b) + 64 * (a * b)) (64 * (a * b)))
        as (t3 & -> & Hl3 & _); try lia.
      cbn [mbind option_bind]. unfold memcpy. rewrite decide_True by lia.
      cbn [mbind option_bind]. eexists _, _. split; [done|].
      rewrite length_app, length_take, length_drop. lia.
    + rewrite decide_False, decide_True by done.
      destruct (reverse_inplace_quad_ok map 0 (256 * (a * b)))
        as (m1 & -> & Hl1); try lia; [by exists (64 * (a * b)); lia|].
      cbn [mbind option_bind].
      destruct (reverse_inplace_quad_ok m1 (256 * (a * b)) (64 * (a * b)))
        as (m2 & -> & Hl2); try lia; [by exists (16 * (a * b)); lia|].
      cbn [mbind option_bind].
      destruct (reverse_inplace_quad_ok m2 (256 * (a * b) + 64 * (a * b))
                  (64 * (a * b)))
        as (m3 & -> & Hl3); try lia; [by exists (16 * (a * b)); lia|].
      cbn [mbind option_bind]. eexists _, _. split; [done|]. congruence.
    + destruct Htmp as (tmp & -> & Hlen); [lia|].
      rewrite !decide_False, decide_True by done. cbn [mbind option_bind].
      destruct (rot90ccw_spec map (16 * a) (16 * b) 0 tmp 0 (256 * (a * b)))
        as (t1 & -> & Hl1 & _); try lia.
      cbn [mbind option_bind].
      destruct (rot90ccw_spec map (8 * a) (8 * b) (256 * (a * b)) t1
                  (256 * (a * b)) (64 * (a * b)))
        as (t2 & -> & Hl2 & _); try lia.
      cbn [mbind option_bind].
      destruct (rot90ccw_spec map (8 * a) (8 * b)
                  (256 * (a * b) + 64 * (a * b)) t2
                  (256 * (a * b) + 64 * (a * b)) (64 * (a * b)))
        as (t3 & -> & Hl3 & _); try lia.
      cbn [mbind option_bind]. unfold memcpy. rewrite decide_True by lia.
      cbn [mbind option_bind]. eexists _, _. split; [done|].
      rewrite length_app, length_take, length_drop. lia.
  - destruct Hdeg as [Hd | [Hd | Hd]]; rewrite Hd.
    + destruct Htmp as (tmp & -> & Hlen); [lia|].
      rewrite decide_True by done. cbn [mbind option_bind].
      destruct (rot90cw_spec map (16 * a) (16 * b) 0 tmp 0 (256 * (a * b)))
        as (t1 & -> & Hl1 & _); try lia.
      cbn [mbind option_bind]. unfold memcpy. rewrite decide_True by lia.
      cbn [mbind option_bind]. eexists _, _. split; [done|].
      rewrite length_app, length_take, length_drop. lia.
    + rewrite decide_False, decide_True by done.
      destruct (reverse_inplace_quad_ok map 0 (256 * (a * b)))
        as (m1 & -> & Hl1); try lia; [by exists (64 * (a * b)); lia|].
      cbn [mbind option_bind]. eexists _, _. split; [done|]. congruence.
    + destruct Htmp as (tmp & -> & Hlen); [lia|].
      rewrite !decide_False, decide_True by done. cbn [mbind option_bind].
      destruct (rot90ccw_spec map (16 * a) (16 * b) 0 tmp 0 (256 * (a * b)))
        as (t1 & -> & Hl1 & _); try lia.
      cbn [mbind option_bind]. unfold memcpy. rewrite decide_True by lia.
      cbn [mbind option_bind]. eexists _, _. split; [done|].
      rewrite length_app, length_take, length_drop. lia.
Qed.
End DispatchFacts.

(** * The claims *)

(** C1, as first stated, fails: with angle 0 the switch of [rotate_map]
    has no case to enter but [default], which returns -1. *)
Lemma rotate_map_angle_zero_counterexample :
  let cnt := (rotate_init (Context 0 2 2 VIDEO_PALETTE_GREY 0 0 0 None)).1 in
  let frame := [x01; x02; x03; x04] in
  degrees cnt = 0 /\
  rotate_map LittleEndian cnt frame = Some (-1, frame, None) /\
  rotate_map BigEndian cnt frame = Some (-1, frame, None) /\
  ~ (exists endian map' tmp',
       rotate_map endian cnt frame = Some (0, map', tmp')).
Proof.
  repeat split. intros ([|] & map' & tmp' & Hrun); discriminate Hrun.
Qed.

(** C1 (as amended).  For every state with angle 0, [rotate_map]
    returns failure (-1) and leaves the frame buffer unchanged; it
    returns an error exactly when the state's angle is outside
    {90, 180, 270}: outside it returns -1, inside it returns 0 whenever
    it returns, and it does return on every frame of the right size
    whose capture dimensions are multiples of 16. *)
Theorem rotate_map_status endian (cnt : context) (map : block) :
  (degrees cnt = 0 ->
     rotate_map endian cnt map = Some (-1, map, temp_buf cnt)) /\
  (~ (degrees cnt = 90 \/ degrees cnt = 180 \/ degrees cnt = 270) ->
     rotate_map endian cnt map = Some (-1, map, temp_buf cnt)) /\
  (forall r map' tmp',
     rotate_map endian cnt map = Some (r, map', tmp') ->
     (r = 0 \/ r = -1) /\
     (r = -1 <->
      ~ (degrees cnt = 90 \/ degrees cnt = 180 \/ degrees cnt = 270))) /\
  (forall a b,
     degrees cnt = 90 \/ degrees cnt = 180 \/ degrees cnt = 270 ->
     0 <= a -> 0 <= b -> cap_width cnt = 16 * a -> cap_height cnt = 16 * b ->
     16 * a * (16 * b) * 3 < 2 ^ 31 ->
     let size :=
       if decide (imgs_type cnt = VIDEO_PALETTE_YUV420P)
       then 384 * (a * b) else 256 * (a * b) in
     Z.of_nat (length map) = size ->
     (degrees cnt <> 180 ->
        exists tmp, temp_buf cnt = Some tmp /\ size <= Z.of_nat (length tmp)) ->
     exists map' tmp', rotate_map endian cnt map = Some (0, map', tmp')).
Proof.
  split; [|split; [|split]].
  - intros H0. apply rotate_map_default; lia.
  - intros Hout. apply rotate_map_default; lia.
  - intros r map' tmp' Hrun.
    destruct (decide (degrees cnt = 90 \/ degrees cnt = 180 \/ degrees cnt = 270))
      as [Hin|Hout].
    + pose proof (rotate_map_rotating endian cnt map map' r tmp' Hin Hrun).
      subst r. split; [by left|]. split; [discriminate | done].
    + rewrite rotate_map_default in Hrun by lia.
      injection Hrun as <- <- <-. split; [by right | done].
  - intros a b Hdeg Ha Hb HW HH Hfit size Hmap Htmp.
    destruct (rotate_map_succeeds endian cnt map a b)
      as (map' & tmp' & Hrun & _); try done.
    by exists map', tmp'.
Qed.

Lemma rotate_map_status_witness :
  rotate_map LittleEndian (Context 0 32 16 VIDEO_PALETTE_GREY 0 32 16 None)
    (gradient 512)
  = Some (-1, gradient 512, None).
Proof.
  apply (proj1 (rotate_map_status LittleEndian
                  (Context 0 32 16 VIDEO_PALETTE_GREY 0 32 16 None)
                  (gradient 512))).
  reflexivity.
Defined.

(** C2, on the code.  A request of -90 (that is, [90 * k] for [k = -1])
    is stored as -90: C's [%] keeps the sign of its left operand, so the
    reduction [% 360] does not land in [0, 360).  The same context with
    the request [(-90) mod 360 = 270] stores 270. *)
Theorem rotate_init_negative_multiple :
  let cnt := Context (90 * -1) 32 16 VIDEO_PALETTE_GREY 0 0 0 None in
  degrees (rotate_init cnt).1 = -90 /\
  temp_buf (rotate_init cnt).1 = None /\
  (90 * -1) mod 360 = 270 /\
  degrees (rotate_init (set_rotate_deg ((90 * -1) mod 360) cnt)).1 = 270.
Proof. repeat split. Qed.

(** C3, on the code.  A request of -45 is not a multiple of 90, yet its
    remainder [-45 % 90 = -45] is not [> 0]: the test lets it through,
    the stored angle is -45 and no warning is logged. *)
Theorem rotate_init_negative_off_angle :
  let cnt := Context (-45) 32 16 VIDEO_PALETTE_GREY 0 0 0 None in
  Z.rem (-45) 90 <> 0 /\
  rotate_init cnt
  = (Context (-45) 32 16 VIDEO_PALETTE_GREY (-45) 32 16 None, []).
Proof. split; [discriminate | reflexivity]. Qed.

(** C4, as first stated, fails on an extent of a single quad: the two
    pointers start out equal, the loop body never runs and the four
    bytes keep their order. *)
Lemma reverse_inplace_quad_single_quad_counterexample :
  let ext := [x01; x02; x03; x04] in
  (4 | Z.of_nat (length ext)) /\
  reverse_inplace_quad LittleEndian ext 0 (Z.of_nat (length ext)) = Some ext /\
  reverse_inplace_quad BigEndian ext 0 (Z.of_nat (length ext)) = Some ext /\
  ~ (exists endian,
       reverse_inplace_quad endian ext 0 (Z.of_nat (length ext))
       = Some (rev ext)).
Proof.
  repeat split; [by exists 1|]. intros ([|] & Hrun); discriminate Hrun.
Qed.

(** C4 (as amended).  For every byte extent whose size is a multiple of
    8, [reverse_inplace_quad] (reversing the order of the 4-byte groups
    while byte-swapping each swapped group) leaves exactly the
    byte-for-byte reversal of the extent, and nothing outside the extent
    changes. *)
Theorem reverse_inplace_quad_reverses endian (pre ext post : block) (size : Z) :
  size = Z.of_nat (length ext) -> (8 | size) ->
  reverse_inplace_quad endian (pre ++ ext ++ post) (Z.of_nat (length pre)) size
  = Some (pre ++ rev ext ++ post).
Proof.
  intros -> [q Hq].
  destruct (quad_parts ext (2 * Z.to_nat q))
    as (n & A & mid & B & -> & HA & HB & Hm & Hle); [lia|].
  destruct mid; [|simpl in Hm; lia].
  rewrite <- !app_assoc.
  rewrite (reverse_inplace_quad_parts endian n) by (done || simpl; lia).
  simpl. by rewrite rev_app_distr, <- !app_assoc.
Qed.

Lemma reverse_inplace_quad_reverses_witness :
  reverse_inplace_quad BigEndian (gradient 2 ++ gradient 8 ++ gradient 1) 2 8
  = Some (gradient 2 ++ rev (gradient 8) ++ gradient 1).
Proof.
  apply (reverse_inplace_quad_reverses BigEndian (gradient 2) (gradient 8)
           (gradient 1) 8).
  - reflexivity.
  - exists 1. reflexivity.
Defined.

(** C5.  For every [width > 0], [height > 0] and source extent of
    [width * height] bytes, [rot90cw] succeeds and writes
    [dst[x*height + y] = src[(height-1-y)*width + x]] for all
    [x] in [0, width) and [y] in [0, height).  In particular, on the
    32x16 buffer holding byte [i mod 256] at index [i], the source byte
    at index [(height-1)*width + 0] lands at destination index 0. *)
Theorem rot90cw_pixels (srcm dstm : block) (src dst size width height : Z) :
  0 < width -> 0 < height -> size = width * height ->
  0 <= src -> src + size <= Z.of_nat (length srcm) ->
  0 <= dst -> dst + size <= Z.of_nat (length dstm) ->
  exists dstm',
    rot90cw srcm src dstm dst size width height = Some dstm' /\
    (forall x y, 0 <= x < width -> 0 <= y < height ->
       is_Some (load srcm (src + ((height - 1 - y) * width + x))) /\
       load dstm' (dst + (x * height + y))
       = load srcm (src + ((height - 1 - y) * width + x))) /\
    (srcm = gradient (32 * 16) -> src = 0 -> width = 32 -> height = 16 ->
       load dstm' (dst + 0) = load srcm ((height - 1) * width + 0) /\
       load dstm' (dst + 0) = Some (byte_of_Z (((16 - 1) * 32 + 0) mod 256))).
Proof.
  intros Hw Hh Hsize Hs0 Hs1 Hd0 Hd1.
  destruct (rot90cw_spec srcm width height src dstm dst size)
    as (dstm' & Hrun & Hlen & Hload); try lia.
  assert (Hcell : forall x y, 0 <= x < width -> 0 <= y < height ->
            is_Some (load srcm (src + ((height - 1 - y) * width + x))) /\
            load dstm' (dst + (x * height + y))
            = load srcm (src + ((height - 1 - y) * width + x))).
  { intros x y Hx Hy. split; [apply load_is_Some; nia|].
    rewrite Hload, decide_True by nia.
    replace (dst + (x * height + y) - dst) with (x * height + y) by lia.
    destruct (cell_div_mod x y height Hy) as [-> ->]. f_equal. lia. }
  exists dstm'. split; [done|]. split; [done|].
  intros -> -> -> ->.
  destruct (Hcell 0 0) as [_ Hcorner]; [lia | lia |].
  change (0 * 16 + 0) with 0 in Hcorner. split.
  - rewrite Hcorner. f_equal.
  - rewrite Hcorner. reflexivity.
Qed.

Lemma rot90cw_pixels_witness :
  exists dstm',
    rot90cw (gradient (32 * 16)) 0 (replicate (32 * 16) x00) 0 512 32 16
      = Some dstm' /\
    load dstm' 0 = Some xe0.
Proof.
  destruct (rot90cw_pixels (gradient (32 * 16)) (replicate (32 * 16) x00)
              0 0 512 32 16) as (dstm' & Hrun & _ & Hcorner);
    [lia | lia | reflexivity | lia | vm_compute; discriminate
    | lia | vm_compute; discriminate | ].
  exists dstm'. split; [exact Hrun|].
  destruct Hcorner as [_ Hc]; [reflexivity..|]. exact Hc.
Defined.

(** C6.  For every [width > 0], [height > 0] and source extent of
    [width * height] bytes, [rot90ccw] succeeds and writes
    [dst[(width-1-x)*height + (height-1-y)] = src[(height-1-y)*width + x]]
    for all [x] in [0, width) and [y] in [0, height); that is, it is
    [rot90cw] followed by a point reflection of the destination
    extent. *)
Theorem rot90ccw_pixels (srcm dstm : block) (src dst size width height : Z) :
  0 < width -> 0 < height -> size = width * height ->
  0 <= src -> src + size <= Z.of_nat (length srcm) ->
  0 <= dst -> dst + size <= Z.of_nat (length dstm) ->
  exists dstm' cw,
    rot90ccw srcm src dstm dst size width height = Some dstm' /\
    rot90cw srcm src dstm dst size width height = Some cw /\
    (forall x y, 0 <= x < width -> 0 <= y < height ->
       is_Some (load srcm (src + ((height - 1 - y) * width + x))) /\
       load dstm' (dst + ((width - 1 - x) * height + (height - 1 - y)))
       = load srcm (src + ((height - 1 - y) * width + x))) /\
    (forall t, 0 <= t < size ->
       load dstm' (dst + t) = load cw (dst + (size - 1 - t))) /\
    (dst = 0 -> Z.of_nat (length dstm) = size -> dstm' = rev cw).
Proof.
  intros Hw Hh Hsize Hs0 Hs1 Hd0 Hd1.
  destruct (rot90ccw_spec srcm width height src dstm dst size)
    as (dstm' & Hrun & Hlen & Hload); try lia.
  destruct (rot90cw_spec srcm width height src dstm dst size)
    as (cw & Hrun' & Hlen' & Hload'); try lia.
  exists dstm', cw. split; [done|]. split; [done|].
  assert (Hflip : forall t, 0 <= t < size ->
            load dstm' (dst + t) = load cw (dst + (size - 1 - t))).
  { intros t Ht. rewrite Hload, Hload', !decide_True by lia.
    f_equal. replace (dst + size - 1 - (dst + t)) with (size - 1 - t) by lia.
    replace (dst + (size - 1 - t) - dst) with (size - 1 - t) by lia. done. }
  split; [|split; [done|]].
  - intros x y Hx Hy. split; [apply load_is_Some; nia|].
    rewrite Hload, decide_True by nia.
    replace (dst + size - 1 - (dst + ((width - 1 - x) * height + (height - 1 - y))))
      with (x * height + y) by lia.
    destruct (cell_div_mod x y height Hy) as [-> ->]. f_equal. lia.
  - intros -> Hfull. apply block_ext. intros k.
    rewrite load_rev, Hlen', Hfull.
    destruct (decide (0 <= k < size)) as [Hk|Hk].
    + specialize (Hflip k Hk). rewrite !Z.add_0_l in Hflip. done.
    + transitivity (@None byte); [|symmetry]; apply load_None; lia.
Qed.

Lemma rot90ccw_pixels_witness :
  exists dstm' cw,
    rot90ccw (gradient 6) 0 (replicate 6 x00) 0 6 3 2 = Some dstm' /\
    rot90cw (gradient 6) 0 (replicate 6 x00) 0 6 3 2 = Some cw /\
    dstm' = rev cw.
Proof.
  destruct (rot90ccw_pixels (gradient 6) (replicate 6 x00) 0 0 6 3 2)
    as (dstm' & cw & Hrun & Hcw & _ & _ & Hrev);
    [lia | lia | reflexivity | lia | vm_compute; discriminate
    | lia | vm_compute; discriminate | ].
  exists dstm', cw. split; [exact Hrun|]. split; [exact Hcw|].
  apply Hrev; reflexivity.
Defined.

(** C7.  For every [W] x [H] greyscale buffer with [W] and [H] multiples
    of 16, [rot90cw] with width [W] and height [H], followed by
    [rot90ccw] with width [H] and height [W] on the result, reproduces
    the original buffer exactly. *)
Theorem quarter_turn_round_trip (frame scratch out : block) (W H : Z) :
  0 <= W -> 0 <= H -> (16 | W) -> (16 | H) ->
  Z.of_nat (length frame) = W * H ->
  Z.of_nat (length scratch) = W * H ->
  Z.of_nat (length out) = W * H ->
  exists turned,
    rot90cw frame 0 scratch 0 (W * H) W H = Some turned /\
    rot90ccw turned 0 out 0 (W * H) H W = Some frame.
Proof.
  intros HW HH _ _ Hf Hs Ho.
  destruct (rot90cw_spec frame W H 0 scratch 0 (W * H))
    as (turned & Hrun & Hlen & Hload); try lia.
  destruct (rot90ccw_spec turned H W 0 out 0 (W * H))
    as (back & Hrun' & Hlen' & Hload'); try lia.
  exists turned. split; [done|]. rewrite Hrun'. f_equal.
  apply block_ext. intros k. rewrite Hload'.
  destruct (decide (0 <= k < 0 + W * H)) as [Hk|Hk].
  - assert (0 < W /\ 0 < H) as [HW' HH'] by nia.
    set (t := 0 + W * H - 1 - k).
    pose proof (Z.div_mod t W) as Hdm.
    pose proof (Z.mod_pos_bound t W) as Hb.
    assert (Ha : 0 <= t / W < H).
    { split; [apply Z.div_pos; lia|].
      apply Z.div_lt_upper_bound; lia. }
    set (a := t / W) in *. set (b := t mod W) in *.
    rewrite Hload, decide_True by nia.
    replace (0 + W * H - H + a - b * H - 0) with ((W - 1 - b) * H + a) by lia.
    destruct (cell_div_mod (W - 1 - b) a H Ha) as [-> ->].
    f_equal. lia.
  - transitivity (@None byte); [|symmetry]; apply load_None; lia.
Qed.

Lemma quarter_turn_round_trip_witness :
  exists turned,
    rot90cw (gradient 512) 0 (replicate 512 x00) 0 (32 * 16) 32 16
      = Some turned /\
    rot90ccw turned 0 (replicate 512 xff) 0 (32 * 16) 16 32
      = Some (gradient 512).
Proof.
  apply (quarter_turn_round_trip (gradient 512) (replicate 512 x00)
           (replicate 512 xff) 32 16).
  - lia.
  - lia.
  - exists 2. reflexivity.
  - exists 1. reflexivity.
  - vm_compute. reflexivity.
  - vm_compute. reflexivity.
  - vm_compute. reflexivity.
Defined.

(** C8.  For every buffer whose size is a positive multiple of 4,
    applying [reverse_inplace_quad] twice gives back the original
    bytes. *)
Theorem reverse_inplace_quad_involutive endian (pre ext post : block) (size : Z) :
  size = Z.of_nat (length ext) -> 0 < size -> (4 | size) ->
  exists once,
    reverse_inplace_quad endian (pre ++ ext ++ post) (Z.of_nat (length pre)) size
      = Some once /\
    reverse_inplace_quad endian once (Z.of_nat (length pre)) size
      = Some (pre ++ ext ++ post).
Proof.
  intros -> _ [q Hq].
  destruct (quad_parts ext (Z.to_nat q))
    as (n & A & mid & B & -> & HA & HB & Hm & Hle); [lia|].
  assert (length mid <= 4)%nat by lia.
  exists (pre ++ rev B ++ mid ++ rev A ++ post). split.
  - rewrite <- !app_assoc. by apply reverse_inplace_quad_parts with (n := n).
  - replace (Z.of_nat (length (A ++ mid ++ B)))
      with (Z.of_nat (length (rev B ++ mid ++ rev A)))
      by (rewrite !length_app, !length_rev; lia).
    rewrite (reverse_inplace_quad_parts endian n)
      by (rewrite ?length_rev; done).
    by rewrite !rev_involutive, <- !app_assoc.
Qed.

Lemma reverse_inplace_quad_involutive_witness :
  exists once,
    reverse_inplace_quad LittleEndian (gradient 12) 0 12 = Some once /\
    reverse_inplace_quad LittleEndian once 0 12 = Some (gradient 12).
Proof.
  apply (reverse_inplace_quad_involutive LittleEndian [] (gradient 12) [] 12).
  - reflexivity.
  - lia.
  - exists 3. reflexivity.
Defined.

(** C9.  After [rotate_init], a scratch buffer exists if and only if
    the angle is 90 or 270 and the pixel format is supported (Greyscale
    or Planar420); when it exists it holds [width * height] bytes for
    Greyscale and [width * height * 3 / 2] for Planar420, in output
    (swapped) dimensions; for angle 0 or 180, and for any unsupported
    format, there is no scratch buffer.  Dimensions are taken in the
    range where the products fit a C [int]. *)
Theorem rotate_init_scratch_buffer (cnt : context) :
  let cnt' := (rotate_init cnt).1 in
  let supported :=
    imgs_type cnt' = VIDEO_PALETTE_GREY \/
    imgs_type cnt' = VIDEO_PALETTE_YUV420P in
  0 <= imgs_width cnt -> 0 <= imgs_height cnt ->
  imgs_width cnt * imgs_height cnt * 3 < 2 ^ 31 ->
  (is_Some (temp_buf cnt') <->
     (degrees cnt' = 90 \/ degrees cnt' = 270) /\ supported) /\
  (forall buf, temp_buf cnt' = Some buf ->
     imgs_width cnt' = imgs_height cnt /\
     imgs_height cnt' = imgs_width cnt /\
     (imgs_type cnt' = VIDEO_PALETTE_GREY ->
        Z.of_nat (length buf) = imgs_width cnt' * imgs_height cnt') /\
     (imgs_type cnt' = VIDEO_PALETTE_YUV420P ->
        Z.of_nat (length buf)
        = Z.quot (imgs_width cnt' * imgs_height cnt' * 3) 2)) /\
  (degrees cnt' = 0 \/ degrees cnt' = 180 -> temp_buf cnt' = None) /\
  (~ supported -> temp_buf cnt' = None).
Proof.
  destruct cnt as [deg w h ty d cw ch tb]. intros cnt' supported.
  cbn [imgs_width imgs_height]. intros Hw Hh Hfit. subst cnt' supported.
  assert (Hwh : int_mul h w = h * w)
    by (apply int_wrap_id; nia).
  assert (Hwh3 : int_mul (h * w) 3 = h * w * 3)
    by (apply int_wrap_id; nia).
  assert (Hq : 0 <= Z.quot (h * w * 3) 2) by (apply Z.quot_pos; nia).
  assert (Hp : 0 <= h * w) by nia.
  unfold rotate_init, VIDEO_PALETTE_GREY, VIDEO_PALETTE_YUV420P. cbn.
  repeat (case_inner_decide; cbn);
    rewrite ?Hwh, ?Hwh3;
    (split; [split; [intros [? ?]; try discriminate; lia
                    | intros [? ?]; try (eexists; reflexivity); lia] |]);
    (split; [intros buf Hbuf; try discriminate;
             injection Hbuf as <-; rewrite mymalloc_length;
             repeat split; intros; try lia |]);
    (split; [intros; try done; lia | intros; try done; lia]).
Qed.

Lemma rotate_init_scratch_buffer_witness :
  let cnt' := (rotate_init
                 (Context 450 32 16 VIDEO_PALETTE_YUV420P 0 0 0 None)).1 in
  degrees cnt' = 90 /\
  exists buf, temp_buf cnt' = Some buf /\
    Z.of_nat (length buf) = Z.quot (16 * 32 * 3) 2.
Proof.
  destruct (rotate_init_scratch_buffer
              (Context 450 32 16 VIDEO_PALETTE_YUV420P 0 0 0 None))
    as (Hiff & Hsize & _ & _); [cbn; lia | cbn; lia | cbn; lia |].
  split; [reflexivity|].
  destruct (proj2 Hiff) as [buf Hbuf].
  { split; [left; reflexivity | right; reflexivity]. }
  exists buf. split; [exact Hbuf|].
  destruct (Hsize buf Hbuf) as (_ & _ & _ & Hyuv). apply Hyuv. reflexivity.
Defined.

(** C10.  Whenever [rotate_map] returns failure (-1), the frame buffer
    and the scratch buffer are exactly as they were: the error path
    writes nothing before it returns. *)
Theorem rotate_map_failure_writes_nothing endian (cnt : context)
    (map map' : block) (tmp' : option block) :
  rotate_map endian cnt map = Some (-1, map', tmp') ->
  map' = map /\ tmp' = temp_buf cnt.
Proof.
  intros Hrun.
  destruct (decide (degrees cnt = 90 \/ degrees cnt = 180 \/ degrees cnt = 270))
    as [Hin|Hout].
  - pose proof (rotate_map_rotating endian cnt map map' (-1) tmp' Hin Hrun).
    discriminate.
  - rewrite rotate_map_default in Hrun by lia.
    by injection Hrun as <- <-.
Qed.

Lemma rotate_map_failure_writes_nothing_witness :
  let cnt := Context 45 32 16 VIDEO_PALETTE_YUV420P 45 32 16
               (Some (replicate 768 xff)) in
  rotate_map BigEndian cnt (gradient 768)
    = Some (-1, gradient 768, Some (replicate 768 xff)) /\
  gradient 768 = gradient 768 /\
  Some (replicate 768 xff) = temp_buf cnt.
Proof.
  split; [reflexivity|].
  apply (rotate_map_failure_writes_nothing BigEndian
           (Context 45 32 16 VIDEO_PALETTE_YUV420P 45 32 16
              (Some (replicate 768 xff)))
           (gradient 768)).
  reflexivity.
Defined.

(** * Further properties of the code *)

(** ** What the loops leave alone *)

Section Frames.
Implicit Types (m srcm dstm : block) (p k : Z) (b : byte).

Lemma store_inv m p b m' :
  store m p b = Some m' ->
  0 <= p < Z.of_nat (length m) /\ length m' = length m /\
  forall k, load m' k = if decide (k = p) then Some b else load m k.
Proof.
  intros Hst. assert (Hp : 0 <= p < Z.of_nat (length m)).
  { unfold store in Hst. by case_decide. }
  destruct (store_Some m p b Hp) as (m2 & Hst2 & Hlen & Hload).
  rewrite Hst in Hst2. injection Hst2 as <-. done.
Qed.

(** The inner loop of [rot90cw], whenever it ends, has written the
    offsets from the old [dst] up to the new one and nothing else. *)
Lemma rot90cw_column_frame (n : nat) :
  forall srcm width height j src dstm dst dstm' dst',
  rot90cw_column n srcm width height j src dstm dst = Some (dstm', dst') ->
  length dstm' = length dstm /\ dst' = dst + Z.max 0 (height - j) /\
  forall k, ~ (dst <= k < dst') -> load dstm' k = load dstm k.
Proof.
  induction n as [|n IH]; intros srcm width height j src dstm dst dstm' dst' Hrun.
  - simpl in Hrun. case_decide; [discriminate|].
    injection Hrun as <- <-. split; [done|]. split; [lia|]. done.
  - cbn [rot90cw_column] in Hrun. case_decide.
    + destruct (load srcm src) as [b|]; [|discriminate].
      cbn [mbind option_bind] in Hrun.
      destruct (store dstm dst b) as [dstm1|] eqn:Hst; [|discriminate].
      cbn [mbind option_bind] in Hrun.
      destruct (store_inv _ _ _ _ Hst) as (Hp & Hlen1 & Hload1).
      destruct (IH _ _ _ _ _ _ _ _ _ Hrun) as (Hlen & Hdst & Hload).
      split; [congruence|]. split; [lia|].
      intros k Hk. rewrite Hload by lia. rewrite Hload1.
      by rewrite decide_False by lia.
    + injection Hrun as <- <-. split; [done|]. split; [lia|]. done.
Qed.

Lemma rot90cw_columns_frame (n : nat) :
  forall srcm width height base endp dstm dst dstm' dst',
  rot90cw_columns n srcm width height base endp dstm dst = Some (dstm', dst') ->
  length dstm' = length dstm /\
  dst' = dst + Z.max 0 (endp - base) * Z.max 0 height /\
  forall k, ~ (dst <= k < dst') -> load dstm' k = load dstm k.
Proof.
  induction n as [|n IH];
    intros srcm width height base endp dstm dst dstm' dst' Hrun.
  - simpl in Hrun. case_decide; [discriminate|].
    injection Hrun as <- <-. split; [done|]. split; [lia|]. done.
  - cbn [rot90cw_columns] in Hrun. case_decide.
    + destruct (rot90cw_column _ _ _ _ _ _ _ _) as [[dstm1 dst1]|] eqn:Hcol;
        [|discriminate].
      cbn [mbind option_bind] in Hrun.
      destruct (rot90cw_column_frame _ _ _ _ _ _ _ _ _ _ Hcol)
        as (Hlen1 & Hdst1 & Hload1).
      destruct (IH _ _ _ _ _ _ _ _ _ Hrun) as (Hlen & Hdst & Hload).
      split; [congruence|]. split; [nia|].
      intros k Hk. rewrite Hload by nia. apply Hload1. nia.
    + injection Hrun as <- <-. split; [done|]. split; [lia|]. done.
Qed.

Lemma rot90ccw_column_frame (n : nat) :
  forall srcm width height j src dstm dst dstm' dst',
  rot90ccw_column n srcm width height j src dstm dst = Some (dstm', dst') ->
  length dstm' = length dstm /\ dst' = dst - Z.max 0 (height - j) /\
  forall k, ~ (dst' < k <= dst) -> load dstm' k = load dstm k.
Proof.
  induction n as [|n IH]; intros srcm width height j src dstm dst dstm' dst' Hrun.
  - simpl in Hrun. case_decide; [discriminate|].
    injection Hrun as <- <-. split; [done|]. split; [lia|]. done.
  - cbn [rot90ccw_column] in Hrun. case_decide.
    + destruct (load srcm src) as [b|]; [|discriminate].
      cbn [mbind option_bind] in Hrun.
      destruct (store dstm dst b) as [dstm1|] eqn:Hst; [|discriminate].
      cbn [mbind option_bind] in Hrun.
      destruct (store_inv _ _ _ _ Hst) as (Hp & Hlen1 & Hload1).
      destruct (IH _ _ _ _ _ _ _ _ _ Hrun) as (Hlen & Hdst & Hload).
      split; [congruence|]. split; [lia|].
      intros k Hk. rewrite Hload by lia. rewrite Hload1.
      by rewrite decide_False by lia.
    + injection Hrun as <- <-. split; [done|]. split; [lia|]. done.
Qed.

Lemma rot90ccw_columns_frame (n : nat) :
  forall srcm width height base endp dstm dst dstm' dst',
  rot90ccw_columns n srcm width height base endp dstm dst = Some (dstm', dst') ->
  length dstm' = length dstm /\
  dst' = dst - Z.max 0 (endp - base) * Z.max 0 height /\
  forall k, ~ (dst' < k <= dst) -> load dstm' k = load dstm k.
Proof.
  induction n as [|n IH];
    intros srcm width height base endp dstm dst dstm' dst' Hrun.
  - simpl in Hrun. case_decide; [discriminate|].
    injection Hrun as <- <-. split; [done|]. split; [lia|]. done.
  - cbn [rot90ccw_columns] in Hrun. case_decide.
    + destruct (rot90ccw_column _ _ _ _ _ _ _ _) as [[dstm1 dst1]|] eqn:Hcol;
        [|discriminate].
      cbn [mbind option_bind] in Hrun.
      destruct (rot90ccw_column_frame _ _ _ _ _ _ _ _ _ _ Hcol)
        as (Hlen1 & Hdst1 & Hload1).
      destruct (IH _ _ _ _ _ _ _ _ _ Hrun) as (Hlen & Hdst & Hload).
      split; [congruence|]. split; [nia|].
      intros k Hk. rewrite Hload by nia. apply Hload1. nia.
    + injection Hrun as <- <-. split; [done|]. split; [lia|]. done.
Qed.

End Frames.

(** X1.  [rot90cw] and [rot90ccw], whenever they return, keep the length
    of the destination block and write [max 0 width * max 0 height]
    bytes: [rot90cw] from [dst] upwards, [rot90ccw] from
    [dst + size - 1] downwards.  Every other byte of the destination
    block is as before, whatever [size] is. *)
Theorem quarter_turn_footprint (srcm dstm dstm' : block)
    (src dst size width height : Z) :
  let count := Z.max 0 width * Z.max 0 height in
  (rot90cw srcm src dstm dst size width height = Some dstm' ->
   length dstm' = length dstm /\
   forall k, ~ (dst <= k < dst + count) -> load dstm' k = load dstm k) /\
  (rot90ccw srcm src dstm dst size width height = Some dstm' ->
   length dstm' = length dstm /\
   forall k, ~ (dst + size - 1 - count < k <= dst + size - 1) ->
     load dstm' k = load dstm k).
Proof.
  intros count. subst count. split; intros Hrun.
  - unfold rot90cw in Hrun.
    destruct (rot90cw_columns _ _ _ _ _ _ _ _) as [[d p]|] eqn:Hcols;
      [|discriminate].
    injection Hrun as ->.
    destruct (rot90cw_columns_frame _ _ _ _ _ _ _ _ _ _ Hcols)
      as (Hlen & Hp & Hload).
    split; [done|]. intros k Hk. apply Hload.
    replace (src + size - (src + size - width)) with width in Hp by lia. lia.
  - unfold rot90ccw in Hrun.
    destruct (rot90ccw_columns _ _ _ _ _ _ _ _) as [[d p]|] eqn:Hcols;
      [|discriminate].
    injection Hrun as ->.
    destruct (rot90ccw_columns_frame _ _ _ _ _ _ _ _ _ _ Hcols)
      as (Hlen & Hp & Hload).
    split; [done|]. intros k Hk. apply Hload.
    replace (src + size - (src + size - width)) with width in Hp by lia. lia.
Qed.

Lemma quarter_turn_footprint_witness :
  exists dstm',
    rot90cw (gradient 6) 0 (replicate 10 xff) 2 6 3 2 = Some dstm' /\
    length dstm' = 10%nat /\
    load dstm' 1 = Some xff /\ load dstm' 8 = Some xff.
Proof.
  exists [xff; xff; x03; x00; x04; x01; x05; x02; xff; xff].
  assert (Hrun : rot90cw (gradient 6) 0 (replicate 10 xff) 2 6 3 2
                 = Some [xff; xff; x03; x00; x04; x01; x05; x02; xff; xff])
    by reflexivity.
  destruct (proj1 (quarter_turn_footprint (gradient 6) (replicate 10 xff)
                     [xff; xff; x03; x00; x04; x01; x05; x02; xff; xff]
                     0 2 6 3 2) Hrun) as (Hlen & Hout).
  split; [exact Hrun|]. split; [exact Hlen|].
  split; [rewrite (Hout 1) by lia | rewrite (Hout 8) by lia]; reflexivity.
Defined.

(** ** Quarter-turns in a row *)

(** Where the second of two turns reads: cell [k] of a raster of width
    [W] is row [k / W], column [k mod W]; the index below is the cell
    that the first turn wrote for it. *)
Lemma turn_index (W H k : Z) :
  0 <= W -> 0 <= H -> 0 <= k < W * H ->
  0 < W /\ 0 < H /\ 0 <= k / W < H /\ 0 <= k mod W < W /\
  k = k / W * W + k mod W /\
  W * H - H + k / W - k mod W * H = (W - 1 - k mod W) * H + k / W /\
  0 <= (W - 1 - k mod W) * H + k / W < W * H.
Proof.
  intros HW0 HH0 Hk. assert (0 < W /\ 0 < H) as [HW HH] by nia.
  pose proof (Z.div_mod k W) as Hdm.
  pose proof (Z.mod_pos_bound k W) as Hb.
  assert (Ha : 0 <= k / W < H).
  { split; [apply Z.div_pos; lia|]. apply Z.div_lt_upper_bound; lia. }
  repeat split; try lia; nia.
Qed.

Section Turns.
Variables (frame s1 s2 : block) (W H : Z).
Hypothesis (HW : 0 <= W) (HH : 0 <= H).
Hypothesis Hframe : Z.of_nat (length frame) = W * H.
Hypothesis Hs1 : Z.of_nat (length s1) = W * H.
Hypothesis Hs2 : Z.of_nat (length s2) = W * H.

Lemma clockwise_twice :
  exists t1,
    rot90cw frame 0 s1 0 (W * H) W H = Some t1 /\
    rot90cw t1 0 s2 0 (W * H) H W = Some (rev frame).
Proof.
  destruct (rot90cw_spec frame W H 0 s1 0 (W * H))
    as (t1 & Hrun1 & Hlen1 & Hload1); try lia.
  destruct (rot90cw_spec t1 H W 0 s2 0 (W * H))
    as (t2 & Hrun2 & Hlen2 & Hload2); try lia.
  exists t1. split; [done|]. rewrite Hrun2. f_equal.
  apply block_ext. intros k. rewrite Hload2, load_rev.
  destruct (decide (0 <= k < 0 + W * H)) as [Hk|Hk].
  - destruct (turn_index W H k) as (HW' & HH' & Ha & Hb & Hkab & Hidx & Hin);
      [lia..|].
    replace (0 + W * H - H + (k - 0) / W - (k - 0) mod W * H)
      with ((W - 1 - k mod W) * H + k / W) by (rewrite Z.sub_0_r; lia).
    rewrite Hload1, decide_True by lia.
    replace ((W - 1 - k mod W) * H + k / W - 0)
      with ((W - 1 - k mod W) * H + k / W) by lia.
    destruct (cell_div_mod (W - 1 - k mod W) (k / W) H Ha) as [-> ->].
    f_equal. lia.
  - transitivity (@None byte); [|symmetry]; apply load_None; lia.
Qed.

Lemma clockwise_then_counter :
  exists t1,
    rot90cw frame 0 s1 0 (W * H) W H = Some t1 /\
    rot90ccw t1 0 s2 0 (W * H) H W = Some frame.
Proof.
  destruct (rot90cw_spec frame W H 0 s1 0 (W * H))
    as (t1 & Hrun1 & Hlen1 & Hload1); try lia.
  destruct (rot90ccw_spec t1 H W 0 s2 0 (W * H))
    as (t2 & Hrun2 & Hlen2 & Hload2); try lia.
  exists t1. split; [done|]. rewrite Hrun2. f_equal.
  apply block_ext. intros k. rewrite Hload2.
  destruct (decide (0 <= k < 0 + W * H)) as [Hk|Hk].
  - set (t := 0 + W * H - 1 - k).
    destruct (turn_index W H t) as (HW' & HH' & Ha & Hb & Hkab & Hidx & Hin);
      [lia..|].
    replace (0 + W * H - H + t / W - t mod W * H)
      with ((W - 1 - t mod W) * H + t / W) by lia.
    rewrite Hload1, decide_True by lia.
    replace ((W - 1 - t mod W) * H + t / W - 0)
      with ((W - 1 - t mod W) * H + t / W) by lia.
    destruct (cell_div_mod (W - 1 - t mod W) (t / W) H Ha) as [-> ->].
    f_equal. lia.
  - transitivity (@None byte); [|symmetry]; apply load_None; lia.
Qed.

End Turns.

(** ** The half-turn on whole quads *)

(** What [reverse_inplace_quad] makes of an extent of whole quads: the
    image [ext'] does not depend on the bytes around the extent, a
    second pass takes [ext'] back to [ext], and on whole pairs of quads
    [ext'] is the reversal. *)
Lemma half_turn_pair endian (ext : block) :
  (4 | Z.of_nat (length ext)) ->
  exists ext',
    length ext' = length ext /\
    (forall pre post,
       reverse_inplace_quad endian (pre ++ ext ++ post)
         (Z.of_nat (length pre)) (Z.of_nat (length ext))
       = Some (pre ++ ext' ++ post)) /\
    (forall pre post,
       reverse_inplace_quad endian (pre ++ ext' ++ post)
         (Z.of_nat (length pre)) (Z.of_nat (length ext))
       = Some (pre ++ ext ++ post)) /\
    ((8 | Z.of_nat (length ext)) -> ext' = rev ext).
Proof.
  intros [q Hq].
  destruct (quad_parts ext (Z.to_nat q))
    as (n & A & mid & B & -> & HA & HB & Hm & Hle); [lia|].
  assert (length mid <= 4)%nat by lia.
  exists (rev B ++ mid ++ rev A).
  split; [rewrite !length_app, !length_rev; lia|].
  split; [|split].
  - intros pre post. rewrite <- !app_assoc.
    by apply reverse_inplace_quad_parts with (n := n).
  - intros pre post.
    replace (Z.of_nat (length (A ++ mid ++ B)))
      with (Z.of_nat (length (rev B ++ mid ++ rev A)))
      by (rewrite !length_app, !length_rev; lia).
    rewrite <- !app_assoc.
    rewrite (reverse_inplace_quad_parts endian n)
      by (rewrite ?length_rev; done).
    by rewrite !rev_involutive.
  - intros [q8 Hq8]. rewrite !length_app in Hq8.
    destruct mid; [|cbn [length] in *; lia].
    simpl. by rewrite rev_app_distr.
Qed.

(** X2.  On an extent of an odd number of quads, [reverse_inplace_quad]
    reverses everything but the middle quad, whose four bytes keep
    their places; the bytes around the extent are untouched. *)
Theorem reverse_inplace_quad_odd_quads endian (pre ext post : block) (n : nat) :
  length ext = (8 * n + 4)%nat ->
  reverse_inplace_quad endian (pre ++ ext ++ post)
    (Z.of_nat (length pre)) (Z.of_nat (length ext))
  = Some (pre ++ rev (drop (4 * n + 4) ext)
              ++ take 4 (drop (4 * n) ext)
              ++ rev (take (4 * n) ext) ++ post).
Proof.
  intros Hlen.
  set (A := take (4 * n) ext).
  set (mid := take 4 (drop (4 * n) ext)).
  set (B := drop (4 * n + 4) ext).
  assert (Hext : ext = A ++ mid ++ B).
  { subst A mid B. rewrite <- (take_drop (4 * n) ext) at 1. f_equal.
    rewrite <- (take_drop 4 (drop (4 * n) ext)) at 1. f_equal.
    rewrite drop_drop. f_equal. }
  rewrite Hext at 1 2. rewrite <- !app_assoc.
  apply reverse_inplace_quad_parts with (n := n); subst A mid B;
    rewrite ?length_take, ?length_drop; lia.
Qed.

Lemma reverse_inplace_quad_odd_quads_witness :
  reverse_inplace_quad LittleEndian (gradient 12) 0 12
  = Some [x0b; x0a; x09; x08; x04; x05; x06; x07; x03; x02; x01; x00].
Proof.
  exact (reverse_inplace_quad_odd_quads LittleEndian [] (gradient 12) [] 1
           eq_refl).
Defined.

(** X3.  Two quarter-turns in the same direction (the second with width
    and height exchanged) leave the byte-for-byte reversal of the
    frame, whichever the direction. *)
Theorem quarter_turn_twice_reverses (frame s1 s2 : block) (W H : Z) :
  0 <= W -> 0 <= H ->
  Z.of_nat (length frame) = W * H ->
  Z.of_nat (length s1) = W * H ->
  Z.of_nat (length s2) = W * H ->
  (exists t1,
     rot90cw frame 0 s1 0 (W * H) W H = Some t1 /\
     rot90cw t1 0 s2 0 (W * H) H W = Some (rev frame)) /\
  (exists t1,
     rot90ccw frame 0 s1 0 (W * H) W H = Some t1 /\
     rot90ccw t1 0 s2 0 (W * H) H W = Some (rev frame)).
Proof.
  intros HW HH Hframe Hs1 Hs2. split; [by apply clockwise_twice|].
  destruct (rot90ccw_spec frame W H 0 s1 0 (W * H))
    as (t1 & Hrun1 & Hlen1 & Hload1); try lia.
  destruct (rot90ccw_spec t1 H W 0 s2 0 (W * H))
    as (t2 & Hrun2 & Hlen2 & Hload2); try lia.
  exists t1. split; [done|]. rewrite Hrun2. f_equal.
  apply block_ext. intros k. rewrite Hload2, load_rev.
  destruct (decide (0 <= k < 0 + W * H)) as [Hk|Hk].
  - set (t := 0 + W * H - 1 - k).
    destruct (turn_index W H t) as (HW' & HH' & Ha & Hb & Hkab & Hidx & Hin);
      [lia..|].
    replace (0 + W * H - H + t / W - t mod W * H)
      with ((W - 1 - t mod W) * H + t / W) by lia.
    rewrite Hload1, decide_True by lia.
    replace (0 + W * H - 1 - ((W - 1 - t mod W) * H + t / W))
      with (t mod W * H + (H - 1 - t / W)) by lia.
    destruct (cell_div_mod (t mod W) (H - 1 - t / W) H) as [-> ->]; [lia|].
    f_equal. lia.
  - transitivity (@None byte); [|symmetry]; apply load_None; lia.
Qed.

Lemma quarter_turn_twice_reverses_witness :
  exists t1,
    rot90ccw (gradient 6) 0 (replicate 6 x00) 0 (3 * 2) 3 2 = Some t1 /\
    rot90ccw t1 0 (replicate 6 xff) 0 (3 * 2) 2 3 = Some (rev (gradient 6)).
Proof.
  apply (quarter_turn_twice_reverses (gradient 6) (replicate 6 x00)
           (replicate 6 xff) 3 2); (lia || reflexivity).
Defined.

(** X4.  A counter-clockwise turn followed by a clockwise turn of the
    result (width and height exchanged) gives the frame back. *)
Theorem counter_then_clockwise_round_trip (frame s1 s2 : block) (W H : Z) :
  0 <= W -> 0 <= H ->
  Z.of_nat (length frame) = W * H ->
  Z.of_nat (length s1) = W * H ->
  Z.of_nat (length s2) = W * H ->
  exists t1,
    rot90ccw frame 0 s1 0 (W * H) W H = Some t1 /\
    rot90cw t1 0 s2 0 (W * H) H W = Some frame.
Proof.
  intros HW HH Hframe Hs1 Hs2.
  destruct (rot90ccw_spec frame W H 0 s1 0 (W * H))
    as (t1 & Hrun1 & Hlen1 & Hload1); try lia.
  destruct (rot90cw_spec t1 H W 0 s2 0 (W * H))
    as (t2 & Hrun2 & Hlen2 & Hload2); try lia.
  exists t1. split; [done|]. rewrite Hrun2. f_equal.
  apply block_ext. intros k. rewrite Hload2.
  destruct (decide (0 <= k < 0 + W * H)) as [Hk|Hk].
  - destruct (turn_index W H k) as (HW' & HH' & Ha & Hb & Hkab & Hidx & Hin);
      [lia..|].
    replace (0 + W * H - H + (k - 0) / W - (k - 0) mod W * H)
      with ((W - 1 - k mod W) * H + k / W) by (rewrite Z.sub_0_r; lia).
    rewrite Hload1, decide_True by lia.
    replace (0 + W * H - 1 - ((W - 1 - k mod W) * H + k / W))
      with (k mod W * H + (H - 1 - k / W)) by lia.
    destruct (cell_div_mod (k mod W) (H - 1 - k / W) H) as [-> ->]; [lia|].
    f_equal. lia.
  - transitivity (@None byte); [|symmetry]; apply load_None; lia.
Qed.

Lemma counter_then_clockwise_round_trip_witness :
  exists t1,
    rot90ccw (gradient 512) 0 (replicate 512 x00) 0 (32 * 16) 32 16
      = Some t1 /\
    rot90cw t1 0 (replicate 512 xff) 0 (32 * 16) 16 32 = Some (gradient 512).
Proof.
  apply (counter_then_clockwise_round_trip (gradient 512)
           (replicate 512 x00) (replicate 512 xff) 32 16);
    (lia || (vm_compute; reflexivity)).
Defined.

(** X5.  Four clockwise quarter-turns, width and height exchanged from
    one to the next, give the frame back. *)
Theorem four_clockwise_turns (frame s1 s2 s3 s4 : block) (W H : Z) :
  0 <= W -> 0 <= H ->
  Z.of_nat (length frame) = W * H ->
  Z.of_nat (length s1) = W * H -> Z.of_nat (length s2) = W * H ->
  Z.of_nat (length s3) = W * H -> Z.of_nat (length s4) = W * H ->
  exists t1 t2 t3,
    rot90cw frame 0 s1 0 (W * H) W H = Some t1 /\
    rot90cw t1 0 s2 0 (W * H) H W = Some t2 /\
    rot90cw t2 0 s3 0 (W * H) W H = Some t3 /\
    rot90cw t3 0 s4 0 (W * H) H W = Some frame.
Proof.
  intros HW HH Hframe Hs1 Hs2 Hs3 Hs4.
  destruct (clockwise_twice frame s1 s2 W H) as (t1 & Hrun1 & Hrun2);
    try done.
  destruct (clockwise_twice (rev frame) s3 s4 W H) as (t3 & Hrun3 & Hrun4);
    try done; [by rewrite length_rev|].
  rewrite rev_involutive in Hrun4.
  by exists t1, (rev frame), t3.
Qed.

Lemma four_clockwise_turns_witness :
  exists t1 t2 t3,
    rot90cw (gradient 6) 0 (replicate 6 x00) 0 (3 * 2) 3 2 = Some t1 /\
    rot90cw t1 0 (replicate 6 x00) 0 (3 * 2) 2 3 = Some t2 /\
    rot90cw t2 0 (replicate 6 x00) 0 (3 * 2) 3 2 = Some t3 /\
    rot90cw t3 0 (replicate 6 x00) 0 (3 * 2) 2 3 = Some (gradient 6).
Proof.
  apply (four_clockwise_turns (gradient 6) (replicate 6 x00)
           (replicate 6 x00) (replicate 6 x00) (replicate 6 x00) 3 2);
    (lia || reflexivity).
Defined.

(** X6.  On a frame of whole pairs of quads, [reverse_inplace_quad] and
    two clockwise quarter-turns arrive at the same bytes: the 180
    degree rotation can be taken either way. *)
Theorem half_turn_is_two_quarter_turns endian (frame s1 s2 : block) (W H : Z) :
  0 <= W -> 0 <= H -> (8 | W * H) ->
  Z.of_nat (length frame) = W * H ->
  Z.of_nat (length s1) = W * H ->
  Z.of_nat (length s2) = W * H ->
  exists t1 turned,
    rot90cw frame 0 s1 0 (W * H) W H = Some t1 /\
    rot90cw t1 0 s2 0 (W * H) H W = Some turned /\
    reverse_inplace_quad endian frame 0 (W * H) = Some turned.
Proof.
  intros HW HH Hdiv Hframe Hs1 Hs2.
  destruct (clockwise_twice frame s1 s2 W H) as (t1 & Hrun1 & Hrun2);
    try done.
  exists t1, (rev frame). split; [done|]. split; [done|].
  destruct (half_turn_pair endian frame) as (ext' & _ & Hrun & _ & Hrev).
  { rewrite Hframe. destruct Hdiv as [q Hq]. exists (2 * q). lia. }
  specialize (Hrun [] []). rewrite !app_nil_r in Hrun.
  change (reverse_inplace_quad endian frame 0 (Z.of_nat (length frame))
          = Some ext') in Hrun.
  rewrite Hframe in Hrun, Hrev. by rewrite Hrun, Hrev.
Qed.

Lemma half_turn_is_two_quarter_turns_witness :
  exists t1 turned,
    rot90cw (gradient 8) 0 (replicate 8 x00) 0 (4 * 2) 4 2 = Some t1 /\
    rot90cw t1 0 (replicate 8 x00) 0 (4 * 2) 2 4 = Some turned /\
    reverse_inplace_quad BigEndian (gradient 8) 0 (4 * 2) = Some turned.
Proof.
  apply (half_turn_is_two_quarter_turns BigEndian (gradient 8)
           (replicate 8 x00) (replicate 8 x00) 4 2);
    (lia || reflexivity).
Defined.

(** ** A transform on an extent inside larger blocks *)

Lemma load_app (A B : block) (k : Z) :
  load (A ++ B) k =
    if decide (k < Z.of_nat (length A)) then load A k
    else load B (k - Z.of_nat (length A)).
Proof.
  unfold load. destruct (decide (0 <= k)) as [Hk|Hk].
  - case_decide.
    + by rewrite lookup_app_l by lia.
    + rewrite decide_True by lia. rewrite lookup_app_r by lia.
      f_equal. lia.
  - by rewrite decide_True by lia.
Qed.

(** A quarter-turn of an extent that sits inside a source block, into
    an extent that sits inside a destination block, writes what the
    same turn writes on the two extents taken alone, and leaves the
    bytes around the destination extent as they are. *)
Lemma rot90cw_local (preS P postS preD D postD : block) (w h : Z) :
  0 <= w -> 0 <= h ->
  Z.of_nat (length P) = w * h -> Z.of_nat (length D) = w * h ->
  exists D',
    length D' = length D /\
    rot90cw P 0 D 0 (w * h) w h = Some D' /\
    rot90cw (preS ++ P ++ postS) (Z.of_nat (length preS))
      (preD ++ D ++ postD) (Z.of_nat (length preD)) (w * h) w h
    = Some (preD ++ D' ++ postD).
Proof.
  intros Hw Hh HP HD.
  destruct (rot90cw_spec P w h 0 D 0 (w * h))
    as (D' & Hrun & Hlen & Hload); try lia.
  destruct (rot90cw_spec (preS ++ P ++ postS) w h (Z.of_nat (length preS))
              (preD ++ D ++ postD) (Z.of_nat (length preD)) (w * h))
    as (R & HrunR & HlenR & HloadR); try (rewrite ?length_app; lia).
  exists D'. split; [done|]. split; [done|]. rewrite HrunR. f_equal.
  apply block_ext. intros k. rewrite HloadR.
  destruct (decide (Z.of_nat (length preD) <= k
                    < Z.of_nat (length preD) + w * h)) as [Hk|Hk].
  - set (t := k - Z.of_nat (length preD)).
    assert (0 < w /\ 0 < h) as [Hw' Hh'] by nia.
    pose proof (Z.mod_pos_bound t h Hh').
    assert (0 <= t / h < w).
    { split; [apply Z.div_pos; lia|]. apply Z.div_lt_upper_bound; lia. }
    rewrite (load_app preD), decide_False by lia.
    rewrite (load_app D'), decide_True by lia.
    rewrite Hload, decide_True by lia.
    rewrite (load_app preS), decide_False by nia.
    rewrite (load_app P), decide_True by nia.
    replace (k - Z.of_nat (length preD) - 0) with t by lia.
    f_equal. lia.
  - rewrite !(load_app preD), !(load_app D'), !(load_app D), Hlen.
    repeat case_decide; done || lia.
Qed.

Lemma rot90ccw_local (preS P postS preD D postD : block) (w h : Z) :
  0 <= w -> 0 <= h ->
  Z.of_nat (length P) = w * h -> Z.of_nat (length D) = w * h ->
  exists D',
    length D' = length D /\
    rot90ccw P 0 D 0 (w * h) w h = Some D' /\
    rot90ccw (preS ++ P ++ postS) (Z.of_nat (length preS))
      (preD ++ D ++ postD) (Z.of_nat (length preD)) (w * h) w h
    = Some (preD ++ D' ++ postD).
Proof.
  intros Hw Hh HP HD.
  destruct (rot90ccw_spec P w h 0 D 0 (w * h))
    as (D' & Hrun & Hlen & Hload); try lia.
  destruct (rot90ccw_spec (preS ++ P ++ postS) w h (Z.of_nat (length preS))
              (preD ++ D ++ postD) (Z.of_nat (length preD)) (w * h))
    as (R & HrunR & HlenR & HloadR); try (rewrite ?length_app; lia).
  exists D'. split; [done|]. split; [done|]. rewrite HrunR. f_equal.
  apply block_ext. intros k. rewrite HloadR.
  destruct (decide (Z.of_nat (length preD) <= k
                    < Z.of_nat (length preD) + w * h)) as [Hk|Hk].
  - set (t := Z.of_nat (length preD) + w * h - 1 - k).
    assert (0 < w /\ 0 < h) as [Hw' Hh'] by nia.
    pose proof (Z.mod_pos_bound t h Hh').
    assert (0 <= t / h < w).
    { split; [apply Z.div_pos; lia|]. apply Z.div_lt_upper_bound; lia. }
    rewrite (load_app preD), decide_False by lia.
    rewrite (load_app D'), decide_True by lia.
    rewrite Hload, decide_True by lia.
    rewrite (load_app preS), decide_False by nia.
    rewrite (load_app P), decide_True by nia.
    replace (0 + w * h - 1 - (k - Z.of_nat (length preD))) with t by lia.
    f_equal. lia.
  - rewrite !(load_app preD), !(load_app D'), !(load_app D), Hlen.
    repeat case_decide; done || lia.
Qed.

(** ** Block lengths along [rotate_map] *)

Section Lengths.
Variable endian : endianness.

Lemma store_bytes_length (bs : list byte) : forall (m m' : block) p,
  store_bytes m p bs = Some m' -> length m' = length m.
Proof.
  induction bs as [|b bs IH]; intros m m' p Hst; simpl in Hst.
  - by injection Hst as <-.
  - destruct (store m p b) as [m1|] eqn:H1; [|discriminate].
    cbn [mbind option_bind] in Hst.
    destruct (store_inv _ _ _ _ H1) as (_ & Hlen & _).
    rewrite (IH _ _ _ Hst). done.
Qed.

Lemma reverse_loop_length (fuel : nat) : forall (m m' : block) nsrc ndst,
  reverse_loop endian fuel m nsrc ndst = Some m' -> length m' = length m.
Proof.
  induction fuel as [|fuel IH]; intros m m' nsrc ndst Hrun.
  - simpl in Hrun. case_decide; [discriminate|]. by injection Hrun as <-.
  - cbn [reverse_loop] in Hrun. case_decide as Hlt.
    + destruct (load32 endian m ndst) as [w|]; [|discriminate].
      cbn [fmap option_fmap option_map mbind option_bind] in Hrun.
      destruct (load32 endian m nsrc) as [v|]; [|discriminate].
      cbn [mbind option_bind] in Hrun.
      destruct (store32 endian m ndst (bswap_32 v)) as [m1|] eqn:H1;
        [|discriminate].
      cbn [mbind option_bind] in Hrun.
      destruct (store32 endian m1 nsrc (bswap_32 w)) as [m2|] eqn:H2;
        [|discriminate].
      cbn [mbind option_bind] in Hrun.
      rewrite (IH _ _ _ _ Hrun).
      rewrite (store_bytes_length _ _ _ _ H2).
      apply (store_bytes_length _ _ _ _ H1).
    + by injection Hrun as <-.
Qed.

Lemma reverse_inplace_quad_length (m m' : block) src size :
  reverse_inplace_quad endian m src size = Some m' -> length m' = length m.
Proof. apply reverse_loop_length. Qed.

Lemma rot90cw_length (srcm dstm dstm' : block) src dst size width height :
  rot90cw srcm src dstm dst size width height = Some dstm' ->
  length dstm' = length dstm.
Proof.
  unfold rot90cw. intros Hrun.
  destruct (rot90cw_columns _ _ _ _ _ _ _ _) as [[d p]|] eqn:Hcols;
    [|discriminate].
  injection Hrun as ->.
  by destruct (rot90cw_columns_frame _ _ _ _ _ _ _ _ _ _ Hcols) as (? & _).
Qed.

Lemma rot90ccw_length (srcm dstm dstm' : block) src dst size width height :
  rot90ccw srcm src dstm dst size width height = Some dstm' ->
  length dstm' = length dstm.
Proof.
  unfold rot90ccw. intros Hrun.
  destruct (rot90ccw_columns _ _ _ _ _ _ _ _) as [[d p]|] eqn:Hcols;
    [|discriminate].
  injection Hrun as ->.
  by destruct (rot90ccw_columns_frame _ _ _ _ _ _ _ _ _ _ Hcols) as (? & _).
Qed.

Lemma memcpy_length (dst src dst' : block) n :
  memcpy dst src n = Some dst' -> length dst' = length dst.
Proof.
  unfold memcpy. case_decide; [|discriminate]. intros [= <-].
  rewrite length_app, length_take, length_drop. lia.
Qed.

Lemma memcpy_whole (dst src : block) :
  length src = length dst ->
  memcpy dst src (Z.of_nat (length dst)) = Some src.
Proof.
  intros Hlen. unfold memcpy. rewrite decide_True by lia. f_equal.
  rewrite Nat2Z.id, <- Hlen, take_ge, drop_ge by lia. apply app_nil_r.
Qed.

End Lengths.

(** X7.  Whatever the state, a call of [rotate_map] that returns leaves
    the frame at its length and the scratch buffer as it was found:
    absent if it was absent, of the same length if it was there.  No
    call grows, shrinks, drops or creates a buffer. *)
Theorem rotate_map_keeps_buffers endian (cnt : context) (map map' : block)
    (r : Z) (tmp' : option block) :
  rotate_map endian cnt map = Some (r, map', tmp') ->
  length map' = length map /\
  length <$> tmp' = length <$> temp_buf cnt.
Proof.
  unfold rotate_map. intros Hrun.
  destruct (decide (degrees cnt = 90)) as [H90|H90].
  - destruct (temp_buf cnt) as [tmp|]; [|discriminate].
    cbn [mbind option_bind] in Hrun.
    destruct (rot90cw map 0 tmp _ _ _ _) as [t1|] eqn:H1; [|discriminate].
    cbn [mbind option_bind] in Hrun.
    apply rot90cw_length in H1.
    destruct (bool_decide _).
    + destruct (rot90cw map _ t1 _ _ _ _) as [t2|] eqn:H2; [|discriminate].
      cbn [mbind option_bind] in Hrun.
      destruct (rot90cw map _ t2 _ _ _ _) as [t3|] eqn:H3; [|discriminate].
      cbn [mbind option_bind] in Hrun.
      apply rot90cw_length in H2, H3.
      destruct (memcpy map t3 _) as [m1|] eqn:Hcp; [|discriminate].
      apply memcpy_length in Hcp. injection Hrun as <- <- <-.
      split; [done|]. cbn. congruence.
    + cbn [mbind option_bind] in Hrun.
      destruct (memcpy map t1 _) as [m1|] eqn:Hcp; [|discriminate].
      apply memcpy_length in Hcp. injection Hrun as <- <- <-.
      split; [done|]. cbn. congruence.
  - destruct (decide (degrees cnt = 180)) as [H180|H180].
    + destruct (reverse_inplace_quad endian map 0 _) as [m1|] eqn:H1;
        [|discriminate].
      cbn [mbind option_bind] in Hrun.
      apply reverse_inplace_quad_length in H1.
      destruct (bool_decide _).
      * destruct (reverse_inplace_quad endian m1 _ _) as [m2|] eqn:H2;
          [|discriminate].
        cbn [mbind option_bind] in Hrun.
        destruct (reverse_inplace_quad endian m2 _ _) as [m3|] eqn:H3;
          [|discriminate].
        apply reverse_inplace_quad_length in H2, H3.
        injection Hrun as <- <- <-. split; [congruence | done].
      * injection Hrun as <- <- <-. split; [congruence | done].
    + destruct (decide (degrees cnt = 270)) as [H270|H270].
      * destruct (temp_buf cnt) as [tmp|]; [|discriminate].
        cbn [mbind option_bind] in Hrun.
        destruct (rot90ccw map 0 tmp _ _ _ _) as [t1|] eqn:H1; [|discriminate].
        cbn [mbind option_bind] in Hrun.
        apply rot90ccw_length in H1.
        destruct (bool_decide _).
        -- destruct (rot90ccw map _ t1 _ _ _ _) as [t2|] eqn:H2;
             [|discriminate].
           cbn [mbind option_bind] in Hrun.
           destruct (rot90ccw map _ t2 _ _ _ _) as [t3|] eqn:H3;
             [|discriminate].
           cbn [mbind option_bind] in Hrun.
           apply rot90ccw_length in H2, H3.
           destruct (memcpy map t3 _) as [m1|] eqn:Hcp; [|discriminate].
           apply memcpy_length in Hcp. injection Hrun as <- <- <-.
           split; [done|]. cbn. congruence.
        -- cbn [mbind option_bind] in Hrun.
           destruct (memcpy map t1 _) as [m1|] eqn:Hcp; [|discriminate].
           apply memcpy_length in Hcp. injection Hrun as <- <- <-.
           split; [done|]. cbn. congruence.
      * injection Hrun as <- <- <-. done.
Qed.

Lemma rotate_map_keeps_buffers_witness :
  let cnt := (rotate_init (Context 90 4 2 VIDEO_PALETTE_GREY 0 0 0 None)).1 in
  exists r map' tmp',
    rotate_map LittleEndian cnt (gradient 8) = Some (r, map', tmp') /\
    length map' = 8%nat /\ length <$> tmp' = Some 8%nat.
Proof.
  eexists _, _, _. split; [reflexivity|].
  eapply (rotate_map_keeps_buffers LittleEndian
            (rotate_init (Context 90 4 2 VIDEO_PALETTE_GREY 0 0 0 None)).1
            (gradient 8)).
  reflexivity.
Defined.

(** ** The branches of [rotate_map], with their sizes worked out *)

Lemma int_mul_fits (a b : Z) :
  - 2 ^ 31 <= a * b < 2 ^ 31 -> int_mul a b = a * b.
Proof. apply int_wrap_id. Qed.

(** The sizes [rotate_map] computes for a planar frame of even width
    [2 * w2] and even height [2 * h2]. *)
Lemma planar_sizes (w2 h2 : Z) :
  0 <= w2 -> 0 <= h2 -> 2 * w2 * (2 * h2) * 3 < 2 ^ 31 ->
  int_mul (2 * w2) (2 * h2) = 2 * w2 * (2 * h2) /\
  Z.quot (int_mul (2 * w2 * (2 * h2)) 3) 2 = 6 * (w2 * h2) /\
  Z.quot (2 * w2 * (2 * h2)) 4 = w2 * h2 /\
  Z.quot (2 * w2) 2 = w2 /\ Z.quot (2 * h2) 2 = h2.
Proof.
  intros Hw Hh Hfit. assert (0 <= w2 * h2) by nia.
  rewrite !int_mul_fits by nia. repeat split.
  - replace (2 * w2 * (2 * h2) * 3) with (6 * (w2 * h2) * 2) by lia.
    apply Z.quot_mul. lia.
  - replace (2 * w2 * (2 * h2)) with (w2 * h2 * 4) by lia.
    apply Z.quot_mul. lia.
  - rewrite Z.mul_comm. apply Z.quot_mul. lia.
  - rewrite Z.mul_comm. apply Z.quot_mul. lia.
Qed.

Section Branches.
Variable endian : endianness.
Variables (cnt : context) (map : block).

Section Grey.
Variables W H : Z.
Hypothesis Htype : imgs_type cnt <> VIDEO_PALETTE_YUV420P.
Hypothesis (HW : cap_width cnt = W) (HH : cap_height cnt = H).
Hypothesis Hfit : - 2 ^ 31 <= W * H < 2 ^ 31.

Lemma rotate_map_grey_at_90 :
  degrees cnt = 90 ->
  rotate_map endian cnt map =
    (tmp ← temp_buf cnt;
     tmp ← rot90cw map 0 tmp 0 (W * H) W H;
     map' ← memcpy map tmp (W * H);
     Some (0, map', Some tmp)).
Proof.
  intros Hdeg. unfold rotate_map.
  rewrite Hdeg, HW, HH. rewrite (int_mul_fits W H) by exact Hfit.
  rewrite bool_decide_eq_false_2 by exact Htype.
  rewrite decide_True by done.
  destruct (temp_buf cnt) as [tmp|]; [|done]. cbn [mbind option_bind].
  by destruct (rot90cw map 0 tmp 0 (W * H) W H).
Qed.

Lemma rotate_map_grey_at_270 :
  degrees cnt = 270 ->
  rotate_map endian cnt map =
    (tmp ← temp_buf cnt;
     tmp ← rot90ccw map 0 tmp 0 (W * H) W H;
     map' ← memcpy map tmp (W * H);
     Some (0, map', Some tmp)).
Proof.
  intros Hdeg. unfold rotate_map.
  rewrite Hdeg, HW, HH. rewrite (int_mul_fits W H) by exact Hfit.
  rewrite bool_decide_eq_false_2 by exact Htype.
  rewrite !decide_False, decide_True by done.
  destruct (temp_buf cnt) as [tmp|]; [|done]. cbn [mbind option_bind].
  by destruct (rot90ccw map 0 tmp 0 (W * H) W H).
Qed.

Lemma rotate_map_grey_at_180 :
  degrees cnt = 180 ->
  rotate_map endian cnt map =
    (map' ← reverse_inplace_quad endian map 0 (W * H);
     Some (0, map', temp_buf cnt)).
Proof.
  intros Hdeg. unfold rotate_map.
  rewrite Hdeg, HW, HH. rewrite (int_mul_fits W H) by exact Hfit.
  rewrite bool_decide_eq_false_2 by exact Htype.
  rewrite decide_False, decide_True by done.
  by destruct (reverse_inplace_quad endian map 0 (W * H)).
Qed.
End Grey.

Section Planar.
Variables w2 h2 : Z.
Hypothesis Htype : imgs_type cnt = VIDEO_PALETTE_YUV420P.
Hypothesis (HW : cap_width cnt = 2 * w2) (HH : cap_height cnt = 2 * h2).
Hypothesis (Hw2 : 0 <= w2) (Hh2 : 0 <= h2).
Hypothesis Hfit : 2 * w2 * (2 * h2) * 3 < 2 ^ 31.

Lemma rotate_map_planar_at_90 :
  degrees cnt = 90 ->
  rotate_map endian cnt map =
    (tmp ← temp_buf cnt;
     tmp ← rot90cw map 0 tmp 0 (2 * w2 * (2 * h2)) (2 * w2) (2 * h2);
     tmp ← (tmp ← rot90cw map (2 * w2 * (2 * h2)) tmp
                    (2 * w2 * (2 * h2)) (w2 * h2) w2 h2;
            rot90cw map (2 * w2 * (2 * h2) + w2 * h2) tmp
              (2 * w2 * (2 * h2) + w2 * h2) (w2 * h2) w2 h2);
     map' ← memcpy map tmp (6 * (w2 * h2));
     Some (0, map', Some tmp)).
Proof.
  intros Hdeg.
  destruct (planar_sizes w2 h2 Hw2 Hh2 Hfit) as (E1 & E2 & E3 & E4 & E5).
  unfold rotate_map.
  rewrite Hdeg, HW, HH, E1, E2, E3, E4, E5.
  rewrite bool_decide_eq_true_2 by exact Htype.
  by rewrite decide_True by done.
Qed.

Lemma rotate_map_planar_at_270 :
  degrees cnt = 270 ->
  rotate_map endian cnt map =
    (tmp ← temp_buf cnt;
     tmp ← rot90ccw map 0 tmp 0 (2 * w2 * (2 * h2)) (2 * w2) (2 * h2);
     tmp ← (tmp ← rot90ccw map (2 * w2 * (2 * h2)) tmp
                    (2 * w2 * (2 * h2)) (w2 * h2) w2 h2;
            rot90ccw map (2 * w2 * (2 * h2) + w2 * h2) tmp
              (2 * w2 * (2 * h2) + w2 * h2) (w2 * h2) w2 h2);
     map' ← memcpy map tmp (6 * (w2 * h2));
     Some (0, map', Some tmp)).
Proof.
  intros Hdeg.
  destruct (planar_sizes w2 h2 Hw2 Hh2 Hfit) as (E1 & E2 & E3 & E4 & E5).
  unfold rotate_map.
  rewrite Hdeg, HW, HH, E1, E2, E3, E4, E5.
  rewrite bool_decide_eq_true_2 by exact Htype.
  by rewrite !decide_False, decide_True by done.
Qed.

Lemma rotate_map_planar_at_180 :
  degrees cnt = 180 ->
  rotate_map endian cnt map =
    (map' ← reverse_inplace_quad endian map 0 (2 * w2 * (2 * h2));
     map' ← (map' ← reverse_inplace_quad endian map'
                      (2 * w2 * (2 * h2)) (w2 * h2);
             reverse_inplace_quad endian map'
               (2 * w2 * (2 * h2) + w2 * h2) (w2 * h2));
     Some (0, map', temp_buf cnt)).
Proof.
  intros Hdeg.
  destruct (planar_sizes w2 h2 Hw2 Hh2 Hfit) as (E1 & E2 & E3 & E4 & E5).
  unfold rotate_map.
  rewrite Hdeg, HW, HH, E1, E3.
  rewrite bool_decide_eq_true_2 by exact Htype.
  by rewrite decide_False, decide_True by done.
Qed.
End Planar.

End Branches.

(** ** Three planes through one transform *)

Section Planes.
Variable turn : block -> Z -> block -> Z -> Z -> Z -> Z -> option block.
Hypothesis turn_local :
  forall (preS P postS preD D postD : block) (w h : Z),
    0 <= w -> 0 <= h ->
    Z.of_nat (length P) = w * h -> Z.of_nat (length D) = w * h ->
    exists D',
      length D' = length D /\
      turn P 0 D 0 (w * h) w h = Some D' /\
      turn (preS ++ P ++ postS) (Z.of_nat (length preS))
        (preD ++ D ++ postD) (Z.of_nat (length preD)) (w * h) w h
      = Some (preD ++ D' ++ postD).

(** The three calls [rotate_map] makes for a planar frame write, plane
    by plane, what the transform writes on each plane taken alone. *)
Lemma planar_turns (Y U V TY TU TV : block) (w2 h2 : Z) :
  0 <= w2 -> 0 <= h2 ->
  Z.of_nat (length Y) = 2 * w2 * (2 * h2) ->
  Z.of_nat (length U) = w2 * h2 -> Z.of_nat (length V) = w2 * h2 ->
  Z.of_nat (length TY) = 2 * w2 * (2 * h2) ->
  Z.of_nat (length TU) = w2 * h2 -> Z.of_nat (length TV) = w2 * h2 ->
  exists Y' U' V',
    length Y' = length Y /\ length U' = length U /\ length V' = length V /\
    turn Y 0 TY 0 (2 * w2 * (2 * h2)) (2 * w2) (2 * h2) = Some Y' /\
    turn U 0 TU 0 (w2 * h2) w2 h2 = Some U' /\
    turn V 0 TV 0 (w2 * h2) w2 h2 = Some V' /\
    forall R (k : block -> option R),
      (tmp ← turn (Y ++ U ++ V) 0 (TY ++ TU ++ TV) 0
               (2 * w2 * (2 * h2)) (2 * w2) (2 * h2);
       tmp ← (tmp ← turn (Y ++ U ++ V) (2 * w2 * (2 * h2)) tmp
                      (2 * w2 * (2 * h2)) (w2 * h2) w2 h2;
              turn (Y ++ U ++ V) (2 * w2 * (2 * h2) + w2 * h2) tmp
                (2 * w2 * (2 * h2) + w2 * h2) (w2 * h2) w2 h2);
       k tmp)
      = k (Y' ++ U' ++ V').
Proof.
  intros Hw Hh HY HU HV HTY HTU HTV.
  destruct (turn_local [] Y (U ++ V) [] TY (TU ++ TV) (2 * w2) (2 * h2))
    as (Y' & HlY & HrunY & Hmap1); try lia.
  destruct (turn_local Y U V Y' TU TV w2 h2)
    as (U' & HlU & HrunU & Hmap2); try lia.
  destruct (turn_local (Y ++ U) V [] (Y' ++ U') TV [] w2 h2)
    as (V' & HlV & HrunV & Hmap3); try lia.
  exists Y', U', V'.
  split; [lia|]. split; [lia|]. split; [lia|].
  split; [done|]. split; [done|]. split; [done|].
  change (turn (Y ++ U ++ V) 0 (TY ++ TU ++ TV) 0
            (2 * w2 * (2 * h2)) (2 * w2) (2 * h2)
          = Some (Y' ++ TU ++ TV)) in Hmap1.
  assert (EY' : Z.of_nat (length Y') = 2 * w2 * (2 * h2)) by lia.
  assert (EU' : Z.of_nat (length U') = w2 * h2) by lia.
  rewrite HY, EY' in Hmap2.
  rewrite !app_nil_r, <- !app_assoc, !length_app, !Nat2Z.inj_add in Hmap3.
  rewrite HY, HU, EY', EU' in Hmap3.
  intros R k.
  rewrite Hmap1. cbn [mbind option_bind].
  rewrite Hmap2. cbn [mbind option_bind].
  by rewrite Hmap3.
Qed.

End Planes.

(** ** Three planes through the half-turn *)

(** If the half-turn takes the extents [Y], [U], [V] to [Y'], [U'],
    [V'] wherever they sit, then the three calls [rotate_map] makes for
    a planar frame take [Y ++ U ++ V] to [Y' ++ U' ++ V']. *)
Lemma planar_half_turns endian (Y U V Y' U' V' : block) (wh wh4 : Z) :
  Z.of_nat (length Y) = wh -> Z.of_nat (length U) = wh4 ->
  Z.of_nat (length V) = wh4 ->
  length Y' = length Y -> length U' = length U ->
  (forall pre post,
     reverse_inplace_quad endian (pre ++ Y ++ post)
       (Z.of_nat (length pre)) (Z.of_nat (length Y))
     = Some (pre ++ Y' ++ post)) ->
  (forall pre post,
     reverse_inplace_quad endian (pre ++ U ++ post)
       (Z.of_nat (length pre)) (Z.of_nat (length U))
     = Some (pre ++ U' ++ post)) ->
  (forall pre post,
     reverse_inplace_quad endian (pre ++ V ++ post)
       (Z.of_nat (length pre)) (Z.of_nat (length V))
     = Some (pre ++ V' ++ post)) ->
  forall R (k : block -> option R),
    (m ← reverse_inplace_quad endian (Y ++ U ++ V) 0 wh;
     m ← (m ← reverse_inplace_quad endian m wh wh4;
          reverse_inplace_quad endian m (wh + wh4) wh4);
     k m)
    = k (Y' ++ U' ++ V').
Proof.
  intros HY HU HV HlY HlU HrY HrU HrV R k.
  specialize (HrY [] (U ++ V)).
  specialize (HrU Y' V).
  specialize (HrV (Y' ++ U') []).
  change (reverse_inplace_quad endian (Y ++ U ++ V) 0 (Z.of_nat (length Y))
          = Some (Y' ++ U ++ V)) in HrY.
  rewrite !app_nil_r, <- !app_assoc, !length_app, !Nat2Z.inj_add in HrV.
  rewrite HlY, HY, HU in HrU. rewrite HlY, HlU, HY, HU, HV in HrV.
  rewrite HY in HrY.
  rewrite HrY. cbn [mbind option_bind].
  rewrite HrU. cbn [mbind option_bind].
  by rewrite HrV.
Qed.

(** ** [rotate_map], branch by branch *)

(** X8.  At 180 degrees on a greyscale frame of whole pairs of quads,
    [rotate_map] returns 0, leaves the byte-for-byte reversal of the
    frame and does not touch the scratch buffer. *)
Theorem rotate_map_grey_half_turn endian (cnt : context) (map : block)
    (W H : Z) :
  degrees cnt = 180 -> imgs_type cnt <> VIDEO_PALETTE_YUV420P ->
  cap_width cnt = W -> cap_height cnt = H ->
  W * H < 2 ^ 31 -> Z.of_nat (length map) = W * H -> (8 | W * H) ->
  rotate_map endian cnt map = Some (0, rev map, temp_buf cnt).
Proof.
  intros Hdeg Hty HW HH Hfit Hmap Hdiv.
  rewrite (rotate_map_grey_at_180 endian cnt map W H) by (done || lia).
  destruct (half_turn_pair endian map) as (map' & _ & Hrun & _ & Hrev).
  { rewrite Hmap. destruct Hdiv as [q Hq]. exists (2 * q). lia. }
  specialize (Hrun [] []). rewrite !app_nil_r in Hrun.
  change (reverse_inplace_quad endian map 0 (Z.of_nat (length map))
          = Some map') in Hrun.
  rewrite Hmap in Hrun, Hrev. rewrite Hrun, Hrev by done. done.
Qed.

Lemma rotate_map_grey_half_turn_witness :
  rotate_map LittleEndian (Context 180 4 4 VIDEO_PALETTE_GREY 180 4 4 None)
    (gradient 16)
  = Some (0, rev (gradient 16), None).
Proof.
  apply (rotate_map_grey_half_turn LittleEndian
           (Context 180 4 4 VIDEO_PALETTE_GREY 180 4 4 None)
           (gradient 16) 4 4);
    first [reflexivity | lia | discriminate | by exists 2].
Defined.

(** X9.  At 180 degrees on a planar frame, [rotate_map] reverses the
    luma plane and each chroma plane on its own: no byte crosses from
    one plane to another.  Planes are taken of whole pairs of quads, as
    they are for dimensions that are multiples of 16. *)
Theorem rotate_map_planar_half_turn endian (cnt : context) (Y U V : block)
    (w2 h2 : Z) :
  degrees cnt = 180 -> imgs_type cnt = VIDEO_PALETTE_YUV420P ->
  cap_width cnt = 2 * w2 -> cap_height cnt = 2 * h2 ->
  0 <= w2 -> 0 <= h2 -> 2 * w2 * (2 * h2) * 3 < 2 ^ 31 ->
  Z.of_nat (length Y) = 2 * w2 * (2 * h2) ->
  Z.of_nat (length U) = w2 * h2 -> Z.of_nat (length V) = w2 * h2 ->
  (8 | w2 * h2) ->
  rotate_map endian cnt (Y ++ U ++ V)
  = Some (0, rev Y ++ rev U ++ rev V, temp_buf cnt).
Proof.
  intros Hdeg Hty HW HH Hw2 Hh2 Hfit HY HU HV [q Hq].
  rewrite (rotate_map_planar_at_180 endian cnt _ w2 h2) by done.
  destruct (half_turn_pair endian Y) as (Y' & HlY & HrY & _ & HeY).
  { exists (8 * q). lia. }
  destruct (half_turn_pair endian U) as (U' & HlU & HrU & _ & HeU).
  { exists (2 * q). lia. }
  destruct (half_turn_pair endian V) as (V' & HlV & HrV & _ & HeV).
  { exists (2 * q). lia. }
  rewrite (planar_half_turns endian Y U V Y' U' V') by done.
  rewrite HeY, HeU, HeV; [done | exists q; lia | exists q; lia |].
  exists (4 * q). lia.
Qed.

Lemma rotate_map_planar_half_turn_witness :
  rotate_map BigEndian (Context 180 8 4 VIDEO_PALETTE_YUV420P 180 8 4 None)
    (gradient 32 ++ gradient 8 ++ gradient 8)
  = Some (0, rev (gradient 32) ++ rev (gradient 8) ++ rev (gradient 8), None).
Proof.
  apply (rotate_map_planar_half_turn BigEndian
           (Context 180 8 4 VIDEO_PALETTE_YUV420P 180 8 4 None)
           (gradient 32) (gradient 8) (gradient 8) 4 2);
    (reflexivity || lia).
Defined.

(** X10.  At 180 degrees, a second call of [rotate_map] undoes the first,
    for a greyscale frame of whole quads and for a planar frame whose
    chroma planes are of whole quads. *)
Theorem rotate_map_half_turn_twice endian (cnt : context) :
  degrees cnt = 180 ->
  (forall (map : block) W H,
     imgs_type cnt <> VIDEO_PALETTE_YUV420P ->
     cap_width cnt = W -> cap_height cnt = H ->
     W * H < 2 ^ 31 -> Z.of_nat (length map) = W * H -> (4 | W * H) ->
     exists once,
       rotate_map endian cnt map = Some (0, once, temp_buf cnt) /\
       rotate_map endian cnt once = Some (0, map, temp_buf cnt)) /\
  (forall (Y U V : block) w2 h2,
     imgs_type cnt = VIDEO_PALETTE_YUV420P ->
     cap_width cnt = 2 * w2 -> cap_height cnt = 2 * h2 ->
     0 <= w2 -> 0 <= h2 -> 2 * w2 * (2 * h2) * 3 < 2 ^ 31 ->
     Z.of_nat (length Y) = 2 * w2 * (2 * h2) ->
     Z.of_nat (length U) = w2 * h2 -> Z.of_nat (length V) = w2 * h2 ->
     (4 | w2 * h2) ->
     exists once,
       rotate_map endian cnt (Y ++ U ++ V) = Some (0, once, temp_buf cnt) /\
       rotate_map endian cnt once = Some (0, Y ++ U ++ V, temp_buf cnt)).
Proof.
  intros Hdeg. split.
  - intros map W H Hty HW HH Hfit Hmap Hdiv.
    destruct (half_turn_pair endian map) as (map' & Hlen & Hrun & Hback & _).
    { by rewrite Hmap. }
    specialize (Hrun [] []). specialize (Hback [] []).
    rewrite !app_nil_r in Hrun, Hback.
    change (reverse_inplace_quad endian map 0 (Z.of_nat (length map))
            = Some map') in Hrun.
    change (reverse_inplace_quad endian map' 0 (Z.of_nat (length map))
            = Some map) in Hback.
    rewrite Hmap in Hrun, Hback.
    exists map'.
    rewrite !(rotate_map_grey_at_180 endian cnt _ W H) by (done || lia).
    by rewrite Hrun, Hback.
  - intros Y U V w2 h2 Hty HW HH Hw2 Hh2 Hfit HY HU HV [q Hq].
    destruct (half_turn_pair endian Y) as (Y' & HlY & HrY & HbY & _).
    { exists (4 * q). lia. }
    destruct (half_turn_pair endian U) as (U' & HlU & HrU & HbU & _).
    { exists q. lia. }
    destruct (half_turn_pair endian V) as (V' & HlV & HrV & HbV & _).
    { exists q. lia. }
    exists (Y' ++ U' ++ V').
    rewrite !(rotate_map_planar_at_180 endian cnt _ w2 h2) by done.
    rewrite (planar_half_turns endian Y U V Y' U' V') by done.
    rewrite <- HlY in HbY. rewrite <- HlU in HbU. rewrite <- HlV in HbV.
    rewrite (planar_half_turns endian Y' U' V' Y U V) by (done || lia).
    done.
Qed.

Lemma rotate_map_half_turn_twice_witness :
  let cnt := Context 180 2 6 VIDEO_PALETTE_GREY 180 2 6 None in
  exists once,
    rotate_map LittleEndian cnt (gradient 12) = Some (0, once, None) /\
    rotate_map LittleEndian cnt once = Some (0, gradient 12, None).
Proof.
  apply (proj1 (rotate_map_half_turn_twice LittleEndian
                  (Context 180 2 6 VIDEO_PALETTE_GREY 180 2 6 None)
                  eq_refl) (gradient 12) 2 6);
    first [reflexivity | lia | discriminate | by exists 3].
Defined.

(** X11.  At 90 and at 270 degrees on a greyscale frame, [rotate_map]
    returns 0 and leaves in the frame (and in the scratch buffer) the
    turned image: pixel [(x, y)] of the turned image, [H] wide, is the
    source pixel the quarter-turn formulas name. *)
Theorem rotate_map_grey_quarter_turn endian (cnt : context) (map tmp : block)
    (W H : Z) :
  imgs_type cnt <> VIDEO_PALETTE_YUV420P ->
  cap_width cnt = W -> cap_height cnt = H ->
  0 < W -> 0 < H -> W * H < 2 ^ 31 ->
  Z.of_nat (length map) = W * H ->
  temp_buf cnt = Some tmp -> Z.of_nat (length tmp) = W * H ->
  (degrees cnt = 90 ->
   exists map',
     rotate_map endian cnt map = Some (0, map', Some map') /\
     forall x y, 0 <= x < W -> 0 <= y < H ->
       load map' (x * H + y) = load map ((H - 1 - y) * W + x)) /\
  (degrees cnt = 270 ->
   exists map',
     rotate_map endian cnt map = Some (0, map', Some map') /\
     forall x y, 0 <= x < W -> 0 <= y < H ->
       load map' ((W - 1 - x) * H + (H - 1 - y))
       = load map ((H - 1 - y) * W + x)).
Proof.
  intros Hty HW HH HW0 HH0 Hfit Hmap Htmp Htlen. split; intros Hdeg.
  - rewrite (rotate_map_grey_at_90 endian cnt map W H) by (done || nia).
    rewrite Htmp. cbn [mbind option_bind].
    destruct (rot90cw_spec map W H 0 tmp 0 (W * H))
      as (t & -> & Hlen & Hload); try lia.
    cbn [mbind option_bind].
    rewrite <- Hmap, memcpy_whole by lia. cbn [mbind option_bind].
    exists t. split; [done|]. intros x y Hx Hy.
    rewrite Hload, decide_True by nia.
    replace (x * H + y - 0) with (x * H + y) by lia.
    destruct (cell_div_mod x y H Hy) as [-> ->]. f_equal. lia.
  - rewrite (rotate_map_grey_at_270 endian cnt map W H) by (done || nia).
    rewrite Htmp. cbn [mbind option_bind].
    destruct (rot90ccw_spec map W H 0 tmp 0 (W * H))
      as (t & -> & Hlen & Hload); try lia.
    cbn [mbind option_bind].
    rewrite <- Hmap, memcpy_whole by lia. cbn [mbind option_bind].
    exists t. split; [done|]. intros x y Hx Hy.
    rewrite Hload, decide_True by nia.
    replace (0 + W * H - 1 - ((W - 1 - x) * H + (H - 1 - y)))
      with (x * H + y) by lia.
    destruct (cell_div_mod x y H Hy) as [-> ->]. f_equal. lia.
Qed.

Lemma rotate_map_grey_quarter_turn_witness :
  let cnt := (rotate_init (Context 90 4 2 VIDEO_PALETTE_GREY 0 0 0 None)).1 in
  exists map',
    rotate_map LittleEndian cnt (gradient 8) = Some (0, map', Some map') /\
    load map' (3 * 2 + 1) = load (gradient 8) ((2 - 1 - 1) * 4 + 3).
Proof.
  destruct (proj1 (rotate_map_grey_quarter_turn LittleEndian
              (rotate_init (Context 90 4 2 VIDEO_PALETTE_GREY 0 0 0 None)).1
              (gradient 8) (replicate 8 x00) 4 2
              ltac:(discriminate) eq_refl eq_refl ltac:(lia) ltac:(lia)
              ltac:(lia) eq_refl eq_refl eq_refl) eq_refl)
    as (map' & Hrun & Hpix).
  exists map'. split; [exact Hrun|]. apply Hpix; lia.
Defined.

(** X12.  At 90 and at 270 degrees on a planar frame, [rotate_map] turns
    the luma plane and the two chroma planes (half the width, half the
    height) each on its own: the frame and the scratch buffer end up
    holding the three turned planes one after the other, each being
    what the transform writes on that plane alone. *)
Theorem rotate_map_planar_quarter_turn endian (cnt : context)
    (Y U V TY TU TV : block) (w2 h2 : Z) :
  imgs_type cnt = VIDEO_PALETTE_YUV420P ->
  cap_width cnt = 2 * w2 -> cap_height cnt = 2 * h2 ->
  0 <= w2 -> 0 <= h2 -> 2 * w2 * (2 * h2) * 3 < 2 ^ 31 ->
  Z.of_nat (length Y) = 2 * w2 * (2 * h2) ->
  Z.of_nat (length U) = w2 * h2 -> Z.of_nat (length V) = w2 * h2 ->
  Z.of_nat (length TY) = 2 * w2 * (2 * h2) ->
  Z.of_nat (length TU) = w2 * h2 -> Z.of_nat (length TV) = w2 * h2 ->
  temp_buf cnt = Some (TY ++ TU ++ TV) ->
  (degrees cnt = 90 ->
   exists Y' U' V',
     rot90cw Y 0 TY 0 (2 * w2 * (2 * h2)) (2 * w2) (2 * h2) = Some Y' /\
     rot90cw U 0 TU 0 (w2 * h2) w2 h2 = Some U' /\
     rot90cw V 0 TV 0 (w2 * h2) w2 h2 = Some V' /\
     rotate_map endian cnt (Y ++ U ++ V)
     = Some (0, Y' ++ U' ++ V', Some (Y' ++ U' ++ V'))) /\
  (degrees cnt = 270 ->
   exists Y' U' V',
     rot90ccw Y 0 TY 0 (2 * w2 * (2 * h2)) (2 * w2) (2 * h2) = Some Y' /\
     rot90ccw U 0 TU 0 (w2 * h2) w2 h2 = Some U' /\
     rot90ccw V 0 TV 0 (w2 * h2) w2 h2 = Some V' /\
     rotate_map endian cnt (Y ++ U ++ V)
     = Some (0, Y' ++ U' ++ V', Some (Y' ++ U' ++ V'))).
Proof.
  intros Hty HW HH Hw2 Hh2 Hfit HY HU HV HTY HTU HTV Htmp.
  assert (Hsize : 6 * (w2 * h2) = Z.of_nat (length (Y ++ U ++ V)))
    by (rewrite !length_app; lia).
  split; intros Hdeg.
  - destruct (planar_turns rot90cw rot90cw_local Y U V TY TU TV w2 h2)
      as (Y' & U' & V' & HlY & HlU & HlV & HrY & HrU & HrV & Hpipe);
      try done.
    exists Y', U', V'. repeat (split; [done|]).
    rewrite (rotate_map_planar_at_90 endian cnt _ w2 h2) by done.
    rewrite Htmp. cbn [mbind option_bind]. rewrite Hpipe.
    rewrite Hsize, memcpy_whole by (rewrite !length_app; lia).
    done.
  - destruct (planar_turns rot90ccw rot90ccw_local Y U V TY TU TV w2 h2)
      as (Y' & U' & V' & HlY & HlU & HlV & HrY & HrU & HrV & Hpipe);
      try done.
    exists Y', U', V'. repeat (split; [done|]).
    rewrite (rotate_map_planar_at_270 endian cnt _ w2 h2) by done.
    rewrite Htmp. cbn [mbind option_bind]. rewrite Hpipe.
    rewrite Hsize, memcpy_whole by (rewrite !length_app; lia).
    done.
Qed.

Lemma rotate_map_planar_quarter_turn_witness :
  let cnt := Context 90 4 2 VIDEO_PALETTE_YUV420P 90 4 2
               (Some (replicate 8 x00 ++ replicate 2 x00 ++ replicate 2 x00)) in
  exists Y' U' V',
    rot90cw (gradient 8) 0 (replicate 8 x00) 0 (2 * 2 * (2 * 1)) (2 * 2) (2 * 1)
      = Some Y' /\
    rot90cw [xa0; xa1] 0 (replicate 2 x00) 0 (2 * 1) 2 1 = Some U' /\
    rot90cw [xb0; xb1] 0 (replicate 2 x00) 0 (2 * 1) 2 1 = Some V' /\
    rotate_map LittleEndian cnt (gradient 8 ++ [xa0; xa1] ++ [xb0; xb1])
    = Some (0, Y' ++ U' ++ V', Some (Y' ++ U' ++ V')).
Proof.
  apply (proj1 (rotate_map_planar_quarter_turn LittleEndian
                  (Context 90 4 2 VIDEO_PALETTE_YUV420P 90 4 2
                     (Some (replicate 8 x00 ++ replicate 2 x00
                            ++ replicate 2 x00)))
                  (gradient 8) [xa0; xa1] [xb0; xb1]
                  (replicate 8 x00) (replicate 2 x00) (replicate 2 x00) 2 1
                  eq_refl eq_refl eq_refl ltac:(lia) ltac:(lia) ltac:(lia)
                  eq_refl eq_refl eq_refl eq_refl eq_refl eq_refl eq_refl)).
  reflexivity.
Defined.

Lemma split3 (T : block) (a b c : Z) :
  0 <= a -> 0 <= b -> 0 <= c -> Z.of_nat (length T) = a + b + c ->
  exists TA TB TC,
    T = TA ++ TB ++ TC /\ Z.of_nat (length TA) = a /\
    Z.of_nat (length TB) = b /\ Z.of_nat (length TC) = c.
Proof.
  intros Ha Hb Hc Hlen.
  exists (take (Z.to_nat a) T), (take (Z.to_nat b) (drop (Z.to_nat a) T)),
    (drop (Z.to_nat b) (drop (Z.to_nat a) T)).
  rewrite !take_drop, !length_take, !length_drop. repeat split; lia.
Qed.

(** X13.  A frame sent through [rotate_map] at 90 degrees, and the result
    sent through [rotate_map] at 270 degrees with capture width and
    height exchanged, comes back byte for byte; both calls return 0.
    This holds for greyscale frames and for planar frames of even
    width and height. *)
Theorem rotate_map_round_trip endian (cnt1 cnt2 : context) (T1 T2 : block) :
  degrees cnt1 = 90 -> degrees cnt2 = 270 ->
  temp_buf cnt1 = Some T1 -> temp_buf cnt2 = Some T2 ->
  (forall (map : block) W H,
     imgs_type cnt1 <> VIDEO_PALETTE_YUV420P ->
     imgs_type cnt2 <> VIDEO_PALETTE_YUV420P ->
     cap_width cnt1 = W -> cap_height cnt1 = H ->
     cap_width cnt2 = H -> cap_height cnt2 = W ->
     0 <= W -> 0 <= H -> W * H < 2 ^ 31 ->
     Z.of_nat (length map) = W * H ->
     Z.of_nat (length T1) = W * H -> Z.of_nat (length T2) = W * H ->
     exists turned,
       rotate_map endian cnt1 map = Some (0, turned, Some turned) /\
       rotate_map endian cnt2 turned = Some (0, map, Some map)) /\
  (forall (Y U V : block) w2 h2,
     imgs_type cnt1 = VIDEO_PALETTE_YUV420P ->
     imgs_type cnt2 = VIDEO_PALETTE_YUV420P ->
     cap_width cnt1 = 2 * w2 -> cap_height cnt1 = 2 * h2 ->
     cap_width cnt2 = 2 * h2 -> cap_height cnt2 = 2 * w2 ->
     0 <= w2 -> 0 <= h2 -> 2 * w2 * (2 * h2) * 3 < 2 ^ 31 ->
     Z.of_nat (length Y) = 2 * w2 * (2 * h2) ->
     Z.of_nat (length U) = w2 * h2 -> Z.of_nat (length V) = w2 * h2 ->
     Z.of_nat (length T1) = 6 * (w2 * h2) ->
     Z.of_nat (length T2) = 6 * (w2 * h2) ->
     exists turned,
       rotate_map endian cnt1 (Y ++ U ++ V) = Some (0, turned, Some turned) /\
       rotate_map endian cnt2 turned
       = Some (0, Y ++ U ++ V, Some (Y ++ U ++ V))).
Proof.
  intros Hd1 Hd2 Ht1 Ht2. split.
  - intros map W H Hty1 Hty2 HW1 HH1 HW2 HH2 HW HH Hfit Hmap HT1 HT2.
    assert (0 <= W * H) by nia.
    destruct (clockwise_then_counter map T1 T2 W H)
      as (turned & Hcw & Hccw); try done.
    assert (Hlen : length turned = length T1)
      by (eapply rot90cw_length; exact Hcw).
    exists turned. split.
    + rewrite (rotate_map_grey_at_90 endian cnt1 map W H) by (done || lia).
      rewrite Ht1. cbn [mbind option_bind]. rewrite Hcw.
      cbn [mbind option_bind].
      by rewrite <- Hmap, memcpy_whole by lia.
    + rewrite (rotate_map_grey_at_270 endian cnt2 turned H W) by (done || lia).
      rewrite Ht2. cbn [mbind option_bind].
      replace (H * W) with (W * H) by lia. rewrite Hccw.
      cbn [mbind option_bind].
      replace (W * H) with (Z.of_nat (length turned)) by lia.
      by rewrite memcpy_whole by lia.
  - intros Y U V w2 h2 Hty1 Hty2 HW1 HH1 HW2 HH2 Hw2 Hh2 Hfit HY HU HV HT1 HT2.
    assert (0 <= w2 * h2) by nia.
    destruct (split3 T1 (2 * w2 * (2 * h2)) (w2 * h2) (w2 * h2))
      as (TY & TU & TV & -> & HTY & HTU & HTV); try lia.
    destruct (split3 T2 (2 * w2 * (2 * h2)) (w2 * h2) (w2 * h2))
      as (SY & SU & SV & -> & HSY & HSU & HSV); try lia.
    destruct (planar_turns rot90cw rot90cw_local Y U V TY TU TV w2 h2)
      as (Y' & U' & V' & HlY & HlU & HlV & HrY & HrU & HrV & Hpipe);
      try done.
    destruct (planar_turns rot90ccw rot90ccw_local Y' U' V' SY SU SV h2 w2)
      as (Y2 & U2 & V2 & _ & _ & _ & HbY & HbU & HbV & Hback);
      try lia.
    assert (Y2 = Y /\ U2 = U /\ V2 = V) as (-> & -> & ->).
    { destruct (clockwise_then_counter Y TY SY (2 * w2) (2 * h2))
        as (y & Hy1 & Hy2); try lia.
      destruct (clockwise_then_counter U TU SU w2 h2)
        as (u & Hu1 & Hu2); try lia.
      destruct (clockwise_then_counter V TV SV w2 h2)
        as (v & Hv1 & Hv2); try lia.
      rewrite HrY in Hy1. rewrite HrU in Hu1. rewrite HrV in Hv1.
      injection Hy1 as <-. injection Hu1 as <-. injection Hv1 as <-.
      replace (2 * w2 * (2 * h2)) with (2 * h2 * (2 * w2)) in Hy2 by lia.
      replace (w2 * h2) with (h2 * w2) in Hu2, Hv2 by lia.
      rewrite HbY in Hy2. rewrite HbU in Hu2. rewrite HbV in Hv2.
      by injection Hy2 as ->; injection Hu2 as ->; injection Hv2 as ->. }
    exists (Y' ++ U' ++ V'). split.
    + rewrite (rotate_map_planar_at_90 endian cnt1 _ w2 h2) by done.
      rewrite Ht1. cbn [mbind option_bind]. rewrite Hpipe.
      replace (6 * (w2 * h2)) with (Z.of_nat (length (Y ++ U ++ V)))
        by (rewrite !length_app; lia).
      by rewrite memcpy_whole by (rewrite !length_app; lia).
    + rewrite (rotate_map_planar_at_270 endian cnt2 _ h2 w2) by (done || lia).
      rewrite Ht2. cbn [mbind option_bind]. rewrite Hback.
      replace (6 * (h2 * w2)) with (Z.of_nat (length (Y' ++ U' ++ V')))
        by (rewrite !length_app; lia).
      by rewrite memcpy_whole by (rewrite !length_app; lia).
Qed.

Lemma rotate_map_round_trip_witness :
  let cnt1 := (rotate_init (Context 90 4 2 VIDEO_PALETTE_GREY 0 0 0 None)).1 in
  let cnt2 := (rotate_init (Context 270 2 4 VIDEO_PALETTE_GREY 0 0 0 None)).1 in
  exists turned,
    rotate_map LittleEndian cnt1 (gradient 8) = Some (0, turned, Some turned) /\
    rotate_map LittleEndian cnt2 turned
    = Some (0, gradient 8, Some (gradient 8)).
Proof.
  apply (proj1 (rotate_map_round_trip LittleEndian
           (rotate_init (Context 90 4 2 VIDEO_PALETTE_GREY 0 0 0 None)).1
           (rotate_init (Context 270 2 4 VIDEO_PALETTE_GREY 0 0 0 None)).1
           (replicate 8 x00) (replicate 8 x00)
           eq_refl eq_refl eq_refl eq_refl) (gradient 8) 4 2);
    first [reflexivity | lia | discriminate].
Defined.

(** ** [rotate_init] in closed form *)

(** The context and the log [rotate_init] ends with, written out:
    [angle] is the request as the first test leaves it, [swap] says
    whether width and height change places. *)
Lemma rotate_init_eq (deg w h ty d cw ch : Z) (tb : option block) :
  rotate_init (Context deg w h ty d cw ch tb) =
    let bad := bool_decide (Z.rem deg 90 > 0) in
    let angle := if bad then 0 else Z.rem deg 360 in
    let deg' := if bad then 0 else deg in
    let log := if bad then [NotMultipleOf90 deg] else [] in
    let swap := bool_decide (angle = 90 \/ angle = 270) in
    let w' := if swap then h else w in
    let h' := if swap then w else h in
    if decide (angle = 0) then
      (Context deg' w' h' ty 0 w h None, log)
    else if decide (ty = VIDEO_PALETTE_YUV420P) then
      (Context deg' w' h' ty angle w h
         (if swap
          then Some (mymalloc (Z.quot (int_mul (int_mul w' h') 3) 2))
          else None), log)
    else if decide (ty = VIDEO_PALETTE_GREY) then
      (Context deg' w' h' ty angle w h
         (if swap then Some (mymalloc (int_mul w' h')) else None), log)
    else
      (Context deg' w' h' ty 0 w h None, log ++ [UnsupportedPalette ty]).
Proof.
  unfold rotate_init. cbn.
  destruct (decide (Z.rem deg 90 > 0)) as [Hbad|Hbad];
    [rewrite (bool_decide_eq_true_2 _ Hbad)
    |rewrite (bool_decide_eq_false_2 _ Hbad)]; cbn.
  - rewrite bool_decide_eq_false_2 by lia.
    rewrite (decide_False (P := 0 = 90 \/ 0 = 270)) by lia. cbn.
    by rewrite !decide_True by done.
  - destruct (decide (Z.rem deg 360 = 90 \/ Z.rem deg 360 = 270)) as [Hs|Hs];
      [rewrite (bool_decide_eq_true_2 _ Hs)
      |rewrite (bool_decide_eq_false_2 _ Hs)]; cbn;
      repeat (case_inner_decide; cbn); try done; try lia;
      match goal with E : Z.rem _ 360 = 0 |- _ => by rewrite E end.
Qed.

(** ** What [rotate_init] settles *)

(** X14.  [rotate_init] records the dimensions it finds as the capture
    dimensions and keeps the palette.  It exchanges [imgs.width] and
    [imgs.height] exactly when the request reduces to 90 or 270 -- before
    the palette is looked at, so also when the palette is then rejected
    and the angle falls back to 0.  A stored angle of 90 or 270 always
    comes with exchanged dimensions, a stored angle of 180 with
    unchanged ones. *)
Theorem rotate_init_dimensions (cnt : context) :
  let cnt' := (rotate_init cnt).1 in
  let quarter :=
    Z.rem (conf_rotate_deg cnt) 360 = 90 \/
    Z.rem (conf_rotate_deg cnt) 360 = 270 in
  cap_width cnt' = imgs_width cnt /\ cap_height cnt' = imgs_height cnt /\
  imgs_type cnt' = imgs_type cnt /\
  (quarter ->
     imgs_width cnt' = imgs_height cnt /\ imgs_height cnt' = imgs_width cnt) /\
  (~ quarter ->
     imgs_width cnt' = imgs_width cnt /\ imgs_height cnt' = imgs_height cnt) /\
  (degrees cnt' = 90 \/ degrees cnt' = 270 -> quarter) /\
  (degrees cnt' = 180 -> ~ quarter).
Proof.
  destruct cnt as [deg w h ty d cw ch tb]. intros cnt' quarter.
  subst cnt' quarter. rewrite rotate_init_eq. cbn.
  assert (Hq : Z.rem deg 360 = 90 \/ Z.rem deg 360 = 270 ->
               ~ Z.rem deg 90 > 0).
  { Z.to_euclidean_division_equations; lia. }
  destruct (decide (Z.rem deg 90 > 0)) as [Hbad|Hbad];
    [rewrite (bool_decide_eq_true_2 _ Hbad)
    |rewrite (bool_decide_eq_false_2 _ Hbad)]; cbn.
  - rewrite bool_decide_eq_false_2 by lia. rewrite decide_True by done. cbn.
    repeat split; tauto || lia.
  - destruct (decide (Z.rem deg 360 = 90 \/ Z.rem deg 360 = 270)) as [Hs|Hs];
      [rewrite (bool_decide_eq_true_2 _ Hs)
      |rewrite (bool_decide_eq_false_2 _ Hs)];
      repeat (case_decide; cbn); repeat split; tauto || lia.
Qed.

Lemma rotate_init_dimensions_witness :
  let cnt' := (rotate_init (Context 450 32 16 7 0 0 0 None)).1 in
  degrees cnt' = 0 /\ imgs_width cnt' = 16 /\ imgs_height cnt' = 32 /\
  cap_width cnt' = 32 /\ cap_height cnt' = 16.
Proof.
  destruct (rotate_init_dimensions (Context 450 32 16 7 0 0 0 None))
    as (Hcw & Hch & _ & Hswap & _).
  destruct Hswap as [Hw Hh]; [left; reflexivity|].
  split; [reflexivity|]. split; [exact Hw|]. split; [exact Hh|].
  split; [exact Hcw | exact Hch].
Defined.

(** X15.  With a palette that is neither greyscale nor planar,
    [rotate_init] always ends with angle 0 and no scratch buffer,
    whatever the request.  When the request got as far as the palette
    test (it passed the multiple-of-90 test and did not reduce to 0) the
    log holds the palette warning alone and [conf.rotate_deg] keeps the
    request: unlike a rejected angle, a rejected palette does not reset
    the configuration. *)
Theorem rotate_init_unsupported_palette (cnt : context) :
  imgs_type cnt <> VIDEO_PALETTE_GREY ->
  imgs_type cnt <> VIDEO_PALETTE_YUV420P ->
  degrees (rotate_init cnt).1 = 0 /\
  temp_buf (rotate_init cnt).1 = None /\
  (~ Z.rem (conf_rotate_deg cnt) 90 > 0 ->
   Z.rem (conf_rotate_deg cnt) 360 <> 0 ->
   (rotate_init cnt).2 = [UnsupportedPalette (imgs_type cnt)] /\
   conf_rotate_deg (rotate_init cnt).1 = conf_rotate_deg cnt).
Proof.
  destruct cnt as [deg w h ty d cw ch tb]. cbn. intros Hg Hy.
  rewrite rotate_init_eq. cbn.
  destruct (decide (Z.rem deg 90 > 0)) as [Hbad|Hbad];
    [rewrite (bool_decide_eq_true_2 _ Hbad)
    |rewrite (bool_decide_eq_false_2 _ Hbad)]; cbn.
  - rewrite decide_True by done. cbn. repeat split; done.
  - rewrite (decide_False (P := ty = VIDEO_PALETTE_YUV420P)) by done.
    rewrite (decide_False (P := ty = VIDEO_PALETTE_GREY)) by done.
    case_decide; cbn; repeat split; done.
Qed.

Lemma rotate_init_unsupported_palette_witness :
  rotate_init (Context 180 32 16 7 0 0 0 None)
  = (Context 180 32 16 7 0 32 16 None, [UnsupportedPalette 7]).
Proof.
  destruct (rotate_init_unsupported_palette (Context 180 32 16 7 0 0 0 None))
    as (Hdeg & Htmp & Hlog); [discriminate | discriminate |].
  destruct Hlog as [Hlog Hconf]; [discriminate | discriminate |].
  reflexivity.
Defined.

(** X16.  A request that reduces to 0 (any multiple of 360, of either
    sign) makes [rotate_init] return before the palette is looked at:
    no warning even for an unknown palette, no scratch buffer, no swap;
    only the capture dimensions are recorded. *)
Theorem rotate_init_no_rotation (cnt : context) :
  Z.rem (conf_rotate_deg cnt) 360 = 0 ->
  rotate_init cnt
  = (Context (conf_rotate_deg cnt) (imgs_width cnt) (imgs_height cnt)
       (imgs_type cnt) 0 (imgs_width cnt) (imgs_height cnt) None, []).
Proof.
  destruct cnt as [deg w h ty d cw ch tb]. cbn. intros Hrem.
  rewrite rotate_init_eq. cbn.
  assert (Hbad : ~ Z.rem deg 90 > 0)
    by (Z.to_euclidean_division_equations; lia).
  rewrite (bool_decide_eq_false_2 _ Hbad). cbn.
  rewrite Hrem. rewrite bool_decide_eq_false_2 by lia.
  by rewrite decide_True by done.
Qed.

Lemma rotate_init_no_rotation_witness :
  rotate_init (Context (-720) 32 16 7 90 1 1 (Some [x00]))
  = (Context (-720) 32 16 7 0 32 16 None, []).
Proof.
  exact (rotate_init_no_rotation
           (Context (-720) 32 16 7 90 1 1 (Some [x00])) eq_refl).
Defined.

(** X17.  Whatever the request and the palette, the angle [rotate_init]
    stores lies strictly between -360 and 360; when it is not negative
    it is one of 0, 90, 180, 270; and when it is positive the palette is
    a supported one, nothing was logged, the configured request is
    untouched and the angle is the request modulo 360.  A negative
    stored angle only comes from a negative request. *)
Theorem rotate_init_stored_angle (cnt : context) :
  let cnt' := (rotate_init cnt).1 in
  - 360 < degrees cnt' < 360 /\
  (0 <= degrees cnt' ->
     degrees cnt' = 0 \/ degrees cnt' = 90 \/
     degrees cnt' = 180 \/ degrees cnt' = 270) /\
  (0 < degrees cnt' ->
     (imgs_type cnt = VIDEO_PALETTE_GREY \/
      imgs_type cnt = VIDEO_PALETTE_YUV420P) /\
     (rotate_init cnt).2 = [] /\
     conf_rotate_deg cnt' = conf_rotate_deg cnt /\
     degrees cnt' = conf_rotate_deg cnt mod 360) /\
  (degrees cnt' < 0 -> conf_rotate_deg cnt < 0).
Proof.
  destruct cnt as [deg w h ty d cw ch tb]. intros cnt'. subst cnt'.
  rewrite rotate_init_eq. cbn.
  destruct (decide (Z.rem deg 90 > 0)) as [Hbad|Hbad];
    [rewrite (bool_decide_eq_true_2 _ Hbad)
    |rewrite (bool_decide_eq_false_2 _ Hbad)]; cbn.
  - rewrite decide_True by done. cbn. repeat split; lia.
  - assert (Hrange : - 360 < Z.rem deg 360 < 360)
      by (Z.to_euclidean_division_equations; lia).
    assert (Hright : 0 <= Z.rem deg 360 ->
              Z.rem deg 360 = 0 \/ Z.rem deg 360 = 90 \/
              Z.rem deg 360 = 180 \/ Z.rem deg 360 = 270)
      by (Z.to_euclidean_division_equations; lia).
    assert (Hmod : 0 < Z.rem deg 360 -> Z.rem deg 360 = deg mod 360)
      by (Z.to_euclidean_division_equations; lia).
    assert (Hneg : Z.rem deg 360 < 0 -> deg < 0)
      by (Z.to_euclidean_division_equations; lia).
    repeat (case_decide; cbn); repeat split; intros; auto; lia.
Qed.

Lemma rotate_init_stored_angle_witness :
  let cnt := Context 630 32 16 VIDEO_PALETTE_YUV420P 0 0 0 None in
  degrees (rotate_init cnt).1 = 630 mod 360 /\ (rotate_init cnt).2 = [].
Proof.
  destruct (rotate_init_stored_angle
              (Context 630 32 16 VIDEO_PALETTE_YUV420P 0 0 0 None))
    as (_ & _ & Hpos & _).
  destruct Hpos as (_ & Hlog & _ & Hmod); [reflexivity|].
  split; [exact Hmod | exact Hlog].
Defined.

(** X18.  [rotate_init] never keeps the scratch pointer it finds in the
    context; so [rotate_deinit], called after it, hands to [free]
    exactly the buffer [rotate_init] allocated when the stored angle is
    90 or 270, and nothing otherwise.  [rotate_deinit] writes no field:
    the pointer is still in the context afterwards. *)
Theorem rotate_deinit_after_init (cnt : context) (stale : option block) :
  let cnt' := (rotate_init cnt).1 in
  rotate_init (set_temp_buf stale cnt) = rotate_init cnt /\
  (rotate_deinit cnt').1 = cnt' /\
  (degrees cnt' = 90 \/ degrees cnt' = 270 ->
   exists buf, temp_buf cnt' = Some buf /\ (rotate_deinit cnt').2 = [buf]) /\
  (~ (degrees cnt' = 90 \/ degrees cnt' = 270) -> (rotate_deinit cnt').2 = []).
Proof.
  destruct cnt as [deg w h ty d cw ch tb]. intros cnt'. subst cnt'.
  unfold set_temp_buf. cbn [conf_rotate_deg imgs_width imgs_height imgs_type
                            degrees cap_width cap_height temp_buf].
  split; [by rewrite !rotate_init_eq|].
  rewrite rotate_init_eq. cbn.
  destruct (decide (Z.rem deg 90 > 0)) as [Hbad|Hbad];
    [rewrite (bool_decide_eq_true_2 _ Hbad)
    |rewrite (bool_decide_eq_false_2 _ Hbad)]; cbn.
  - rewrite decide_True by done. unfold rotate_deinit. cbn.
    split; [done|]. split; [intros; lia | done].
  - destruct (decide (Z.rem deg 360 = 90 \/ Z.rem deg 360 = 270)) as [Hs|Hs];
      [rewrite (bool_decide_eq_true_2 _ Hs)
      |rewrite (bool_decide_eq_false_2 _ Hs)];
      repeat (case_decide; cbn); unfold rotate_deinit; cbn;
      (split; [done|]);
      (split; [intros; try lia; eauto | intros; try done; tauto || lia ]).
Qed.

Lemma rotate_deinit_after_init_witness :
  let cnt' := (rotate_init (Context 270 4 2 VIDEO_PALETTE_GREY 0 0 0
                              (Some [xff]))).1 in
  (rotate_deinit cnt').2 = [replicate 8 x00].
Proof.
  destruct (rotate_deinit_after_init
              (Context 270 4 2 VIDEO_PALETTE_GREY 0 0 0 (Some [xff])) None)
    as (_ & _ & Hfree & _).
  destruct Hfree as (buf & Hbuf & Hfreed); [right; reflexivity|].
  injection Hbuf as <-. exact Hfreed.
Defined.

(** ** From set-up to the first frame *)

Lemma rotate_init_capture (cnt : context) :
  cap_width (rotate_init cnt).1 = imgs_width cnt /\
  cap_height (rotate_init cnt).1 = imgs_height cnt /\
  imgs_type (rotate_init cnt).1 = imgs_type cnt.
Proof.
  destruct cnt as [deg w h ty d cw ch tb]. rewrite rotate_init_eq. cbn.
  repeat case_decide; done.
Qed.

(** The scratch buffer [rotate_init] allocates for dimensions that are
    multiples of 16 holds one frame. *)
Lemma rotate_init_scratch_frame (cnt : context) (a b : Z) :
  0 <= a -> 0 <= b ->
  imgs_width cnt = 16 * a -> imgs_height cnt = 16 * b ->
  16 * a * (16 * b) * 3 < 2 ^ 31 ->
  degrees (rotate_init cnt).1 = 90 \/ degrees (rotate_init cnt).1 = 270 ->
  exists tmp,
    temp_buf (rotate_init cnt).1 = Some tmp /\
    Z.of_nat (length tmp)
    = (if decide (imgs_type cnt = VIDEO_PALETTE_YUV420P)
       then 384 * (a * b) else 256 * (a * b)).
Proof.
  destruct cnt as [deg w h ty d cw ch tb]. cbn. intros Ha Hb -> -> Hfit.
  rewrite rotate_init_eq. cbn.
  destruct (plane_sizes b a Hb Ha) as (Hwh & Hsz & _); [lia|].
  assert (Hab : 0 <= a * b) by nia.
  destruct (decide (Z.rem deg 90 > 0)) as [Hbad|Hbad];
    [rewrite (bool_decide_eq_true_2 _ Hbad)
    |rewrite (bool_decide_eq_false_2 _ Hbad)]; cbn.
  { rewrite decide_True by done. cbn. lia. }
  destruct (decide (Z.rem deg 360 = 90 \/ Z.rem deg 360 = 270)) as [Hs|Hs];
    [rewrite (bool_decide_eq_true_2 _ Hs)
    |rewrite (bool_decide_eq_false_2 _ Hs)];
    repeat (case_decide; cbn); intros Hin; try lia;
    eexists; (split; [reflexivity|]);
    rewrite ?Hwh, ?Hsz, mymalloc_length; lia.
Qed.

(** X19.  For capture dimensions that are multiples of 16 and a frame of
    the size of the palette, [rotate_map] on the context that
    [rotate_init] leaves never reads or writes outside a buffer, for any
    request and any palette: it returns 0 when the stored angle is 90,
    180 or 270 and otherwise returns -1 with the frame as it was. *)
Theorem rotate_init_then_rotate_map endian (cnt : context) (frame : block)
    (a b : Z) :
  0 <= a -> 0 <= b ->
  imgs_width cnt = 16 * a -> imgs_height cnt = 16 * b ->
  16 * a * (16 * b) * 3 < 2 ^ 31 ->
  Z.of_nat (length frame)
  = (if decide (imgs_type cnt = VIDEO_PALETTE_YUV420P)
     then 384 * (a * b) else 256 * (a * b)) ->
  let cnt' := (rotate_init cnt).1 in
  exists r frame' tmp',
    rotate_map endian cnt' frame = Some (r, frame', tmp') /\
    length frame' = length frame /\
    (degrees cnt' = 90 \/ degrees cnt' = 180 \/ degrees cnt' = 270 -> r = 0) /\
    (~ (degrees cnt' = 90 \/ degrees cnt' = 180 \/ degrees cnt' = 270) ->
     r = -1 /\ frame' = frame).
Proof.
  intros Ha Hb HW HH Hfit Hframe cnt'.
  destruct (rotate_init_capture cnt) as (Hcw & Hch & Hty).
  fold cnt' in Hcw, Hch, Hty.
  destruct (decide (degrees cnt' = 90 \/ degrees cnt' = 180 \/
                    degrees cnt' = 270)) as [Hin|Hout].
  - destruct (rotate_map_succeeds endian cnt' frame a b)
      as (frame' & tmp' & Hrun & Hlen); try done.
    + congruence.
    + congruence.
    + by rewrite Hty.
    + intros Hne. rewrite Hty.
      apply rotate_init_scratch_frame with (a := a) (b := b) in HW as Hs;
        try done; [|fold cnt'; lia].
      destruct Hs as (tmp & Htmp & Hlen). exists tmp. split; [done | lia].
    + exists 0, frame', tmp'.
      split; [done|]. split; [done|]. split; [done | tauto].
  - exists (-1), frame, (temp_buf cnt').
    rewrite rotate_map_default by tauto.
    split; [done|]. split; [done|]. split; [tauto | done].
Qed.

Lemma rotate_init_then_rotate_map_witness :
  let cnt' := (rotate_init
                 (Context (-90) 16 16 VIDEO_PALETTE_GREY 0 0 0 None)).1 in
  exists r frame' tmp',
    rotate_map LittleEndian cnt' (gradient 256) = Some (r, frame', tmp') /\
    r = -1 /\ frame' = gradient 256.
Proof.
  destruct (rotate_init_then_rotate_map LittleEndian
              (Context (-90) 16 16 VIDEO_PALETTE_GREY 0 0 0 None)
              (gradient 256) 1 1)
    as (r & frame' & tmp' & Hrun & _ & _ & Hout);
    [lia | lia | reflexivity | reflexivity | lia | vm_compute; reflexivity |].
  exists r, frame', tmp'. split; [exact Hrun|].
  apply Hout. vm_compute. intros [H|[H|H]]; discriminate H.
Defined.

(** ** Nothing is carried from one frame to the next *)

(** A quarter-turn into a destination block of the size of the extent
    overwrites all of it: what was there does not show in the result. *)
Lemma rot90cw_fresh (P D1 D2 : block) (w h : Z) :
  0 <= w -> 0 <= h -> Z.of_nat (length P) = w * h ->
  Z.of_nat (length D1) = w * h -> Z.of_nat (length D2) = w * h ->
  rot90cw P 0 D1 0 (w * h) w h = rot90cw P 0 D2 0 (w * h) w h.
Proof.
  intros Hw Hh HP H1 H2.
  destruct (rot90cw_spec P w h 0 D1 0 (w * h))
    as (R1 & -> & Hl1 & Hload1); try lia.
  destruct (rot90cw_spec P w h 0 D2 0 (w * h))
    as (R2 & -> & Hl2 & Hload2); try lia.
  f_equal. apply block_ext. intros k. rewrite Hload1, Hload2.
  case_decide; [done|].
  transitivity (@None byte); [|symmetry]; apply load_None; lia.
Qed.

Lemma rot90ccw_fresh (P D1 D2 : block) (w h : Z) :
  0 <= w -> 0 <= h -> Z.of_nat (length P) = w * h ->
  Z.of_nat (length D1) = w * h -> Z.of_nat (length D2) = w * h ->
  rot90ccw P 0 D1 0 (w * h) w h = rot90ccw P 0 D2 0 (w * h) w h.
Proof.
  intros Hw Hh HP H1 H2.
  destruct (rot90ccw_spec P w h 0 D1 0 (w * h))
    as (R1 & -> & Hl1 & Hload1); try lia.
  destruct (rot90ccw_spec P w h 0 D2 0 (w * h))
    as (R2 & -> & Hl2 & Hload2); try lia.
  f_equal. apply block_ext. intros k. rewrite Hload1, Hload2.
  case_decide; [done|].
  transitivity (@None byte); [|symmetry]; apply load_None; lia.
Qed.

(** X20.  At 90 and 270 degrees the bytes found in the scratch buffer do
    not matter: with a scratch buffer of the size of the frame,
    [rotate_map] returns the same frame and leaves the same scratch
    buffer whatever the buffer held before.  This holds for greyscale
    frames and for planar frames of even width and height. *)
Theorem rotate_map_scratch_irrelevant endian (cnt : context)
    (T1 T2 : block) :
  degrees cnt = 90 \/ degrees cnt = 270 ->
  temp_buf cnt = Some T1 -> length T2 = length T1 ->
  (forall (map : block) W H,
     imgs_type cnt <> VIDEO_PALETTE_YUV420P ->
     cap_width cnt = W -> cap_height cnt = H ->
     0 <= W -> 0 <= H -> W * H < 2 ^ 31 ->
     Z.of_nat (length map) = W * H -> Z.of_nat (length T1) = W * H ->
     rotate_map endian (set_temp_buf (Some T2) cnt) map
     = rotate_map endian cnt map) /\
  (forall (Y U V : block) w2 h2,
     imgs_type cnt = VIDEO_PALETTE_YUV420P ->
     cap_width cnt = 2 * w2 -> cap_height cnt = 2 * h2 ->
     0 <= w2 -> 0 <= h2 -> 2 * w2 * (2 * h2) * 3 < 2 ^ 31 ->
     Z.of_nat (length Y) = 2 * w2 * (2 * h2) ->
     Z.of_nat (length U) = w2 * h2 -> Z.of_nat (length V) = w2 * h2 ->
     Z.of_nat (length T1) = 6 * (w2 * h2) ->
     rotate_map endian (set_temp_buf (Some T2) cnt) (Y ++ U ++ V)
     = rotate_map endian cnt (Y ++ U ++ V)).
Proof.
  intros Hdeg Ht1 Hlen. split.
  - intros map W H Hty HW HH HW0 HH0 Hfit Hmap HT1.
    assert (0 <= W * H) by nia.
    destruct Hdeg as [Hdeg|Hdeg].
    + rewrite !(rotate_map_grey_at_90 endian _ map W H) by (done || lia).
      cbn [set_temp_buf temp_buf]. rewrite Ht1. cbn [mbind option_bind].
      by rewrite (rot90cw_fresh map T2 T1) by lia.
    + rewrite !(rotate_map_grey_at_270 endian _ map W H) by (done || lia).
      cbn [set_temp_buf temp_buf]. rewrite Ht1. cbn [mbind option_bind].
      by rewrite (rot90ccw_fresh map T2 T1) by lia.
  - intros Y U V w2 h2 Hty HW HH Hw2 Hh2 Hfit HY HU HV HT1.
    assert (0 <= w2 * h2) by nia.
    destruct (split3 T1 (2 * w2 * (2 * h2)) (w2 * h2) (w2 * h2))
      as (TY & TU & TV & -> & HTY & HTU & HTV); try lia.
    destruct (split3 T2 (2 * w2 * (2 * h2)) (w2 * h2) (w2 * h2))
      as (SY & SU & SV & -> & HSY & HSU & HSV); try lia.
    destruct Hdeg as [Hdeg|Hdeg].
    + destruct (planar_turns rot90cw rot90cw_local Y U V TY TU TV w2 h2)
        as (Y1 & U1 & V1 & _ & _ & _ & HrY & HrU & HrV & Hpipe1); try done.
      destruct (planar_turns rot90cw rot90cw_local Y U V SY SU SV w2 h2)
        as (Y2 & U2 & V2 & _ & _ & _ & HsY & HsU & HsV & Hpipe2); try done.
      rewrite (rot90cw_fresh Y SY TY), HrY in HsY by lia.
      rewrite (rot90cw_fresh U SU TU), HrU in HsU by lia.
      rewrite (rot90cw_fresh V SV TV), HrV in HsV by lia.
      injection HsY as <-. injection HsU as <-. injection HsV as <-.
      rewrite !(rotate_map_planar_at_90 endian _ _ w2 h2) by done.
      cbn [set_temp_buf temp_buf]. rewrite Ht1. cbn [mbind option_bind].
      by rewrite Hpipe1, Hpipe2.
    + destruct (planar_turns rot90ccw rot90ccw_local Y U V TY TU TV w2 h2)
        as (Y1 & U1 & V1 & _ & _ & _ & HrY & HrU & HrV & Hpipe1); try done.
      destruct (planar_turns rot90ccw rot90ccw_local Y U V SY SU SV w2 h2)
        as (Y2 & U2 & V2 & _ & _ & _ & HsY & HsU & HsV & Hpipe2); try done.
      rewrite (rot90ccw_fresh Y SY TY), HrY in HsY by lia.
      rewrite (rot90ccw_fresh U SU TU), HrU in HsU by lia.
      rewrite (rot90ccw_fresh V SV TV), HrV in HsV by lia.
      injection HsY as <-. injection HsU as <-. injection HsV as <-.
      rewrite !(rotate_map_planar_at_270 endian _ _ w2 h2) by done.
      cbn [set_temp_buf temp_buf]. rewrite Ht1. cbn [mbind option_bind].
      by rewrite Hpipe1, Hpipe2.
Qed.

Lemma rotate_map_scratch_irrelevant_witness :
  let cnt := (rotate_init (Context 270 4 2 VIDEO_PALETTE_GREY 0 0 0 None)).1 in
  rotate_map BigEndian (set_temp_buf (Some (gradient 8)) cnt) (gradient 8)
  = rotate_map BigEndian cnt (gradient 8).
Proof.
  apply (proj1 (rotate_map_scratch_irrelevant BigEndian
           (rotate_init (Context 270 4 2 VIDEO_PALETTE_GREY 0 0 0 None)).1
           (replicate 8 x00) (gradient 8)
           (or_intror eq_refl) eq_refl eq_refl) (gradient 8) 4 2);
    first [reflexivity | lia | discriminate].
Defined.
